(** * Dependency analysis of the priorities management system

    A shallow embedding of [automation/dependency_analyzer.py]:
    graph construction from the free-text dependency references of a task
    list, cycle detection, critical-path computation, readiness
    classification and the enhanced analysis that annotates the tasks.

    Conventions of the embedding.
    - A Python [str] is a [string]; a character is one of the 256 code
      points of Latin-1, on which [str.lower], [str.strip], [\s] and [\d]
      are written out below.
    - A [dict] whose iteration order is observed ([nodes], [edges],
      [reverse_edges], [longest_path]) is an association list in insertion
      order with unique keys; [in_degree] is only looked up and updated and
      is a [gmap]; the two sets of the depth-first search are [gset]s.
    - A Python [float] is a binary64 [float] of the kernel.
    - An exception is a value of [exn]; a loop that the source does not
      bound takes fuel and gives no result when the fuel is used up.
    - The recursion of [dfs] takes one frame of the interpreter for each
      call that is open.  The analysis takes as [frames] the number of
      frames that the recursion limit leaves to [dfs] where it is called;
      a call that finds no frame left raises [RecursionError]. *)

From stdpp Require Import gmap strings list.
From Stdlib Require Import PrimFloat ZArith Ascii.

Set Warnings "-clear-no-such-hyp".

(** ** Python strings *)

Module PyStr.

Definition code (c : ascii) : nat := nat_of_ascii c.

Definition between (lo hi n : nat) : bool := (lo <=? n)%nat && (n <=? hi)%nat.

(** [str.isspace] on one character, also the class [\s] of [re]. *)
Definition is_space (c : ascii) : bool :=
  let n := code c in
  between 9 13 n || between 28 32 n || (n =? 133)%nat || (n =? 160)%nat.

(** The class [\d] of [re]. *)
Definition is_digit (c : ascii) : bool := between 48 57 (code c).

Definition is_hash (c : ascii) : bool := (code c =? 35)%nat.

(** [str.lower] on one character. *)
Definition lower_char (c : ascii) : ascii :=
  let n := code c in
  if between 65 90 n || (between 192 222 n && negb (n =? 215)%nat)
  then ascii_of_nat (n + 32) else c.

Fixpoint lower (s : string) : string :=
  match s with
  | EmptyString => EmptyString
  | String c s' => String (lower_char c) (lower s')
  end.

Fixpoint take_while (p : ascii → bool) (s : string) : string :=
  match s with
  | EmptyString => EmptyString
  | String c s' => if p c then String c (take_while p s') else EmptyString
  end.

Fixpoint drop_while (p : ascii → bool) (s : string) : string :=
  match s with
  | EmptyString => EmptyString
  | String c s' => if p c then drop_while p s' else s
  end.

Definition is_empty (s : string) : bool :=
  match s with EmptyString => true | _ => false end.

Fixpoint drop_while_end (p : ascii → bool) (s : string) : string :=
  match s with
  | EmptyString => EmptyString
  | String c s' =>
      let r := drop_while_end p s' in
      if is_empty r && p c then EmptyString else String c r
  end.

(** [s.strip()] and [s.strip('#')]. *)
Definition strip_with (p : ascii → bool) (s : string) : string :=
  drop_while_end p (drop_while p s).

Definition strip (s : string) : string := strip_with is_space s.

(** [s.startswith(p)]. *)
Definition startswith (p s : string) : bool := String.prefix p s.

(** [needle in hay]. *)
Fixpoint contains (needle hay : string) : bool :=
  String.prefix needle hay ||
  match hay with
  | EmptyString => false
  | String _ hay' => contains needle hay'
  end.

Fixpoint strip_prefix (p s : string) : option string :=
  match p, s with
  | EmptyString, _ => Some s
  | String a p', String b s' =>
      if Ascii.eqb a b then strip_prefix p' s' else None
  | String _ _, EmptyString => None
  end.

(** One attempt of [task\s*#?(\d+)] at the start of [s]: the digits of
    the group and the length of the whole match.  The three classes are
    disjoint, so the greedy choice is the only one that can succeed. *)
Definition match_task_ref (s : string) : option (string * nat) :=
  match strip_prefix "task" s with
  | None => None
  | Some r =>
      let ws := take_while is_space r in
      let r1 := drop_while is_space r in
      let '(hash, r2) :=
        match r1 with
        | String c r' => if is_hash c then (1, r') else (0, r1)
        | EmptyString => (0, r1)
        end in
      let ds := take_while is_digit r2 in
      if is_empty ds then None
      else Some (ds, 4 + String.length ws + hash + String.length ds)
  end.

(** [re.findall(r'task\s*#?(\d+)', s)]: [skip] characters of a match
    found earlier are still to be passed over. *)
Fixpoint findall_from (skip : nat) (s : string) : list string :=
  match s with
  | EmptyString => []
  | String _ s' =>
      match skip with
      | S k => findall_from k s'
      | O =>
          match match_task_ref s with
          | Some (ds, len) => ds :: findall_from (len - 1) s'
          | None => findall_from 0 s'
          end
      end
  end.

Definition findall_task_refs (s : string) : list string := findall_from 0 s.

End PyStr.

(** ** Dictionaries in insertion order *)

Module ODict.

Definition t (V : Type) : Type := list (string * V).

Fixpoint get {V} (d : t V) (k : string) : option V :=
  match d with
  | [] => None
  | (k', v) :: d' => if decide (k = k') then Some v else get d' k
  end.

Definition get_or {V} (d : t V) (k : string) (dflt : V) : V :=
  default dflt (get d k).

Definition mem {V} (d : t V) (k : string) : bool :=
  match get d k with Some _ => true | None => false end.

(** [d[k] = v]: an existing key keeps its place, a new one goes last. *)
Fixpoint set {V} (k : string) (v : V) (d : t V) : t V :=
  match d with
  | [] => [(k, v)]
  | (k', v') :: d' =>
      if decide (k = k') then (k, v) :: d' else (k', v') :: set k v d'
  end.

Definition keys {V} (d : t V) : list string := d.*1.

Definition values {V} (d : t V) : list V := d.*2.

End ODict.

(** ** Tasks *)

Inductive TaskStatus := PENDING | IN_PROGRESS | COMPLETED | BLOCKED.

Definition is_completed (s : TaskStatus) : bool :=
  match s with COMPLETED => true | _ => false end.

(** The fields of [task_parser.Task] that the analyzer reads or writes. *)
Record Task := mkTask {
  id : string;
  status : TaskStatus;
  estimated_hours : float;
  dependencies : list string;
  blocks : list string;
  complexity_indicators : list string;
  risk_factors : list string;
  success_patterns : list string
}.

(** ** Graph construction *)

(** [f"#{task.id.strip('#')}" if task.id.startswith('#') else f"#{task.id}"] *)
Definition normalize_id (i : string) : string :=
  if PyStr.startswith "#" i
  then "#" +:+ PyStr.strip_with PyStr.is_hash i
  else "#" +:+ i.

Definition task_key (t : Task) : string := normalize_id (id t).

(** The dict comprehension that builds [nodes], from a dict [d]. *)
Definition nodes_from (d : ODict.t Task) (tasks : list Task) : ODict.t Task :=
  fold_left (fun d t => ODict.set (task_key t) t d) tasks d.

Definition build_nodes (tasks : list Task) : ODict.t Task := nodes_from [] tasks.

(** The pair [(edges, reverse_edges)] of the two [defaultdict(list)]. *)
Definition adjacency : Type := ODict.t (list string) * ODict.t (list string).

(** [d[k].append(x)] on a [defaultdict(list)]. *)
Definition append_at (k x : string) (d : ODict.t (list string)) : ODict.t (list string) :=
  ODict.set k (ODict.get_or d k [] ++ [x]) d.

Definition add_edge (prereq_id task_id : string) (a : adjacency) : adjacency :=
  (append_at prereq_id task_id a.1, append_at task_id prereq_id a.2).

Definition testing_keywords : list string := ["testing"; "pipeline"; "completion"].
Definition aar_keywords : list string := ["aar"; "automation"; "tracking"].

Definition any_keyword (kws : list string) (s : string) : bool :=
  existsb (fun kw => PyStr.contains kw s) kws.

Definition add_anchor (nodes : ODict.t Task) (anchor task_id : string)
    (a : adjacency) : adjacency :=
  if ODict.mem nodes anchor && negb (bool_decide (task_id = anchor))
  then add_edge anchor task_id a else a.

Definition add_ref (nodes : ODict.t Task) (task_id : string)
    (a : adjacency) (ref : string) : adjacency :=
  let prereq_id := "#" +:+ ref in
  if ODict.mem nodes prereq_id then add_edge prereq_id task_id a else a.

(** The body of [for dep in task.dependencies]. *)
Definition add_dep (nodes : ODict.t Task) (task_id : string)
    (a : adjacency) (dep : string) : adjacency :=
  let dep_clean := PyStr.lower (PyStr.strip dep) in
  if PyStr.contains "task" dep_clean then
    fold_left (add_ref nodes task_id) (PyStr.findall_task_refs dep_clean) a
  else if any_keyword testing_keywords dep_clean then
    add_anchor nodes "#1" task_id a
  else if any_keyword aar_keywords dep_clean then
    add_anchor nodes "#4" task_id a
  else a.

(** The body of [for task in tasks]. *)
Definition add_task (nodes : ODict.t Task) (a : adjacency) (t : Task) : adjacency :=
  fold_left (add_dep nodes (task_key t)) (dependencies t) a.

Definition build_edges (nodes : ODict.t Task) (tasks : list Task) : adjacency :=
  fold_left (add_task nodes) tasks ([], []).

(** ** Outcomes *)

Inductive exn := ValueError | KeyError | RecursionError.

Inductive result (A : Type) : Type :=
  | Returned (a : A)
  | Raised (e : exn)
  | OutOfFuel.
Arguments Returned {A} a.
Arguments Raised {A} e.
Arguments OutOfFuel {A}.

(** ** Cycle detection *)

(** The three variables that the closure [dfs] shares with its caller. *)
Record dfs_state := mkDfs {
  visited : gset string;
  rec_stack : gset string;
  cycles : list (list string)
}.

(** [path.index(node)] *)
Fixpoint index_of (x : string) (l : list string) : option nat :=
  match l with
  | [] => None
  | y :: l' => if decide (x = y) then Some 0 else S <$> index_of x l'
  end.

Definition neighbors (edges : ODict.t (list string)) (node : string) : list string :=
  ODict.get_or edges node [].

(** The loop [for neighbor in edges.get(node, [])] of [dfs] and the two
    statements after it; [call] is the recursive call on a neighbour. *)
Fixpoint visit_neighbors (call : string → dfs_state → result (bool * dfs_state))
    (node : string) (nbrs : list string) (st : dfs_state)
    : result (bool * dfs_state) :=
  match nbrs with
  | [] =>
      if decide (node ∈ rec_stack st)
      then Returned (false, mkDfs (visited st) (rec_stack st ∖ {[node]}) (cycles st))
      else Raised KeyError
  | n :: rest =>
      match call n st with
      | Returned (true, st') => Returned (true, st')
      | Returned (false, st') => visit_neighbors call node rest st'
      | Raised e => Raised e
      | OutOfFuel => OutOfFuel
      end
  end.

(** [frames] is the number of calls of [dfs] that may still be open at
    the same time. *)
Fixpoint dfs (frames : nat) (edges : ODict.t (list string))
    (node : string) (path : list string) (st : dfs_state)
    : result (bool * dfs_state) :=
  match frames with
  | O => Raised RecursionError
  | S frames' =>
      if decide (node ∈ rec_stack st) then
        match index_of node path with
        | None => Raised ValueError
        | Some cycle_start =>
            Returned (true, mkDfs (visited st) (rec_stack st)
                              (cycles st ++ [drop cycle_start path ++ [node]]))
        end
      else if decide (node ∈ visited st) then Returned (false, st)
      else
        visit_neighbors (fun n => dfs frames' edges n (path ++ [node])) node
          (neighbors edges node)
          (mkDfs ({[node]} ∪ visited st) ({[node]} ∪ rec_stack st) (cycles st))
  end.

(** The loop [for node in edges] of [_detect_cycles]. *)
Fixpoint dfs_roots (frames : nat) (edges : ODict.t (list string))
    (roots : list string) (st : dfs_state) : result dfs_state :=
  match roots with
  | [] => Returned st
  | node :: roots' =>
      if decide (node ∈ visited st) then dfs_roots frames edges roots' st
      else
        match dfs frames edges node [] st with
        | Returned (_, st') => dfs_roots frames edges roots' st'
        | Raised e => Raised e
        | OutOfFuel => OutOfFuel
        end
  end.

(** Every id of the adjacency: the keys and the members of the lists. *)
Definition universe (edges : ODict.t (list string)) : list string :=
  ODict.keys edges ++ mjoin (ODict.values edges).

Definition _detect_cycles (frames : nat) (edges : ODict.t (list string))
    : result (list (list string)) :=
  match dfs_roots frames edges (ODict.keys edges) (mkDfs ∅ ∅ []) with
  | Returned st => Returned (cycles st)
  | Raised e => Raised e
  | OutOfFuel => OutOfFuel
  end.

(** ** Critical path *)

Open Scope float_scope.

(** The variables of the worklist loop.  [popped] is bookkeeping of the
    embedding: the nodes taken from the queue, in order.  Nothing reads
    it. *)
Record kahn_state := mkKahn {
  queue : list string;
  in_degree : gmap string Z;
  longest_path : ODict.t float;
  popped : list string
}.

(** [in_degree[n]] on a [defaultdict(int)]. *)
Definition indeg (d : gmap string Z) (n : string) : Z := default 0%Z (d !! n).

(** The two loops that count the incoming edges. *)
Definition count_in_degree (edges : ODict.t (list string)) : gmap string Z :=
  fold_left
    (fun d entry =>
       fold_left (fun d neighbor => <[neighbor := (indeg d neighbor + 1)%Z]> d) entry.2 d)
    edges ∅.

(** [nodes[n].estimated_hours if n in nodes else 1] *)
Definition weight (nodes : ODict.t Task) (n : string) : float :=
  match ODict.get nodes n with
  | Some t => estimated_hours t
  | None => 1
  end.

(** The body of [for neighbor in edges.get(current, [])]. *)
Definition relax (nodes : ODict.t Task) (current : string)
    (current_distance : float) (s : kahn_state) (neighbor : string) : kahn_state :=
  let neighbor_distance := ODict.get_or (longest_path s) neighbor 0 in
  let task_weight := weight nodes current in
  let lp :=
    if neighbor_distance <? current_distance + task_weight
    then ODict.set neighbor (current_distance + task_weight) (longest_path s)
    else longest_path s in
  let d := (indeg (in_degree s) neighbor - 1)%Z in
  mkKahn (if (d =? 0)%Z then queue s ++ [neighbor] else queue s)
         (<[neighbor := d]> (in_degree s)) lp (popped s).

(** The loop [while queue]. *)
Fixpoint kahn_loop (fuel : nat) (nodes : ODict.t Task)
    (edges : ODict.t (list string)) (s : kahn_state) : option kahn_state :=
  match queue s with
  | [] => Some s
  | current :: rest =>
      match fuel with
      | O => None
      | S fuel' =>
          let current_distance := ODict.get_or (longest_path s) current 0 in
          kahn_loop fuel' nodes edges
            (fold_left (relax nodes current current_distance)
               (neighbors edges current)
               (mkKahn rest (in_degree s) (longest_path s) (popped s ++ [current])))
      end
  end.

Definition kahn_init (nodes : ODict.t Task) (edges : ODict.t (list string)) : kahn_state :=
  let d := count_in_degree edges in
  mkKahn (filter (fun n => indeg d n = 0%Z) (ODict.keys nodes)) d [] [].

(** A node is taken from the queue at most once, so the nodes and the
    members of the adjacency lists bound the number of iterations (see
    [kahn_total]). *)
Definition kahn_fuel (nodes : ODict.t Task) (edges : ODict.t (list string)) : nat :=
  length (ODict.keys nodes) + length (mjoin (ODict.values edges)).

Definition kahn (nodes : ODict.t Task) (edges : ODict.t (list string)) : option kahn_state :=
  kahn_loop (kahn_fuel nodes edges) nodes edges (kahn_init nodes edges).

(** [max(longest_path.items(), key=lambda x: x[1])]: the first item that
    no later one exceeds. *)
Definition max_item (items : list (string * float)) : option (string * float) :=
  match items with
  | [] => None
  | x :: xs => Some (fold_left (fun m y => if m.2 <? y.2 then y else m) xs x)
  end.

(** The tests of the inner [for node in nodes] of the trace back;
    [0x1.999999999999ap-4] is the binary64 value of the literal [0.1]. *)
Definition is_pred (nodes : ODict.t Task) (edges : ODict.t (list string))
    (lp : ODict.t float) (current : string) (current_distance : float)
    (node : string) : bool :=
  negb (bool_decide (node = current))
  && bool_decide (current ∈ neighbors edges node)
  && (abs (ODict.get_or lp node 0 + weight nodes node - current_distance) <? 0x1.999999999999ap-4).

(** The loop [while current_distance > 0]; the source does not bound it. *)
Fixpoint trace_back (fuel : nat) (nodes : ODict.t Task)
    (edges : ODict.t (list string)) (lp : ODict.t float)
    (critical_path : list string) (current : string) (current_distance : float)
    : option (list string) :=
  if 0 <? current_distance then
    match fuel with
    | O => None
    | S fuel' =>
        match List.find (is_pred nodes edges lp current current_distance)
                (ODict.keys nodes) with
        | Some node =>
            trace_back fuel' nodes edges lp (node :: critical_path) node
              (ODict.get_or lp node 0)
        | None => Some critical_path
        end
    end
  else Some critical_path.

Definition _find_critical_path (fuel : nat) (nodes : ODict.t Task)
    (edges : ODict.t (list string)) : option (list string) :=
  match kahn nodes edges with
  | None => None
  | Some s =>
      match max_item (longest_path s) with
      | None => Some []
      | Some (max_node, max_distance) =>
          trace_back fuel nodes edges (longest_path s) [max_node] max_node max_distance
      end
  end.

Close Scope float_scope.

(** ** Readiness *)

(** [all(nodes[prereq].status == COMPLETED for prereq in prereqs if prereq in nodes)] *)
Definition prereq_completed (nodes : ODict.t Task) (prereqs : list string) : bool :=
  forallb
    (fun prereq =>
       match ODict.get nodes prereq with
       | Some t => is_completed (status t)
       | None => false
       end)
    (filter (fun prereq => ODict.mem nodes prereq = true) prereqs).

(** The body of [for task_id, task in nodes.items()] on the pair
    [(blocked_tasks, ready_tasks)]. *)
Definition classify_step (nodes : ODict.t Task) (reverse_edges : ODict.t (list string))
    (acc : list string * list string) (item : string * Task)
    : list string * list string :=
  let '(task_id, task) := item in
  if is_completed (status task) then acc
  else
    let prereqs := ODict.get_or reverse_edges task_id [] in
    match prereqs with
    | _ :: _ =>
        if negb (prereq_completed nodes prereqs)
        then (acc.1 ++ [task_id], acc.2)
        else (acc.1, acc.2 ++ [task_id])
    | [] => (acc.1, acc.2 ++ [task_id])
    end.

Definition classify (nodes : ODict.t Task) (reverse_edges : ODict.t (list string))
    : list string * list string :=
  fold_left (classify_step nodes reverse_edges) nodes ([], []).

(** ** The graph *)

Record DependencyGraph := mkGraph {
  nodes : ODict.t Task;
  edges : ODict.t (list string);
  reverse_edges : ODict.t (list string);
  graph_cycles : list (list string);
  critical_path : list string;
  blocked_tasks : list string;
  ready_tasks : list string
}.

(** [frames] is the room for the recursion of [dfs], [fuel] the number of
    rounds given to the trace back of the critical path. *)
Definition from_tasks (frames fuel : nat) (tasks : list Task) : result DependencyGraph :=
  let nodes := build_nodes tasks in
  let '(edges, reverse_edges) := build_edges nodes tasks in
  match _detect_cycles frames edges with
  | Raised e => Raised e
  | OutOfFuel => OutOfFuel
  | Returned cycles =>
      match _find_critical_path fuel nodes edges with
      | None => OutOfFuel
      | Some critical_path =>
          let '(blocked_tasks, ready_tasks) := classify nodes reverse_edges in
          Returned (mkGraph nodes edges reverse_edges cycles critical_path
                      blocked_tasks ready_tasks)
      end
  end.

(** ** Summary and enhanced analysis *)

(** The result of [get_analysis_summary].  The two percentages, which the
    source rounds to one decimal, are left out; the division that
    computes them is guarded by [total_tasks > 0]. *)
Record Summary := mkSummary {
  total_tasks : nat;
  completed_tasks : nat;
  blocked_count : nat;
  ready_count : nat;
  cycles_detected : nat;
  critical_path_length : nat;
  summary_critical_path : list string;
  next_recommended_tasks : list string;
  blocking_issues : list string
}.

Definition get_analysis_summary (g : DependencyGraph) : Summary :=
  mkSummary
    (length (nodes g))
    (length (filter (fun item => is_completed (status item.2) = true) (nodes g)))
    (length (blocked_tasks g))
    (length (ready_tasks g))
    (length (graph_cycles g))
    (length (critical_path g))
    (critical_path g)
    (take 3 (ready_tasks g))
    ((fun task_id => "Task " +:+ task_id +:+ " blocked by incomplete prerequisites")
       <$> blocked_tasks g).

(** [DependencyAnalyzer.analyze_dependencies] *)
Definition analyze_dependencies (frames fuel : nat) (tasks : list Task)
    : result DependencyGraph :=
  from_tasks frames fuel tasks.

(** The task objects live in a store; a task list is a list of
    references, so that one object may be listed twice and a write to it
    is seen through every reference. *)
Definition heap : Type := nat → Task.

Definition store (a : nat) (t : Task) (h : heap) : heap :=
  fun b => if decide (b = a) then t else h b.

Definition snapshot (h : heap) (tasks : list nat) : list Task := h <$> tasks.

Definition set_blocks (l : list string) (t : Task) : Task :=
  mkTask (id t) (status t) (estimated_hours t) (dependencies t) l
    (complexity_indicators t) (risk_factors t) (success_patterns t).

Definition append_complexity (x : string) (t : Task) : Task :=
  mkTask (id t) (status t) (estimated_hours t) (dependencies t) (blocks t)
    (complexity_indicators t ++ [x]) (risk_factors t) (success_patterns t).

Definition append_risk (x : string) (t : Task) : Task :=
  mkTask (id t) (status t) (estimated_hours t) (dependencies t) (blocks t)
    (complexity_indicators t) (risk_factors t ++ [x]) (success_patterns t).

Definition append_success (x : string) (t : Task) : Task :=
  mkTask (id t) (status t) (estimated_hours t) (dependencies t) (blocks t)
    (complexity_indicators t) (risk_factors t) (success_patterns t ++ [x]).

Definition when (b : bool) (f : Task → Task) (t : Task) : Task :=
  if b then f t else t.

(** The writes of one round of [for task in tasks] to the object [task]. *)
Definition enhance_task (g : DependencyGraph) (task : Task) : Task :=
  let task_id := task_key task in
  let t1 := set_blocks (ODict.get_or (edges g) task_id []) task in
  let t2 := when (bool_decide (task_id ∈ critical_path g))
              (append_complexity "critical_path") t1 in
  let t3 := when (bool_decide (task_id ∈ blocked_tasks g))
              (append_risk "blocked_by_dependencies") t2 in
  when (bool_decide (task_id ∈ ready_tasks g))
    (append_success "ready_for_execution") t3.

Definition enhance_step (g : DependencyGraph) (h : heap) (a : nat) : heap :=
  store a (enhance_task g (h a)) h.

(** The store after the call, the list [enhanced_tasks] and the summary. *)
Definition enhance_task_analysis (frames fuel : nat) (h : heap) (tasks : list nat)
    : result (heap * list nat * Summary) :=
  match from_tasks frames fuel (snapshot h tasks) with
  | Returned dep_graph =>
      Returned (fold_left (enhance_step dep_graph) tasks h, tasks,
                get_analysis_summary dep_graph)
  | Raised e => Raised e
  | OutOfFuel => OutOfFuel
  end.

(** ** Vocabulary of the statements *)

Fixpoint all_chars (p : ascii → bool) (s : string) : bool :=
  match s with
  | EmptyString => true
  | String c s' => p c && all_chars p s'
  end.

Definition first_char (s : string) : option ascii :=
  match s with
  | EmptyString => None
  | String c _ => Some c
  end.

Fixpoint last_char (s : string) : option ascii :=
  match s with
  | EmptyString => None
  | String c s' =>
      match last_char s' with
      | Some c' => Some c'
      | None => Some c
      end
  end.

(** The last task of the list whose key is [k]. *)
Fixpoint last_with_key (k : string) (tasks : list Task) : option Task :=
  match tasks with
  | [] => None
  | t :: tasks' =>
      match last_with_key k tasks' with
      | Some t' => Some t'
      | None => if decide (task_key t = k) then Some t else None
      end
  end.

(** The adjacency that [from_tasks] builds for a task list. *)
Definition graph_adjacency (tasks : list Task) : adjacency :=
  build_edges (build_nodes tasks) tasks.

(** Every key and every member of a list of [d] is a key of [nodes]. *)
Definition closed_in (nodes : ODict.t Task) (d : ODict.t (list string)) : Prop :=
  ∀ k l, ODict.get d k = Some l →
    k ∈ ODict.keys nodes ∧ ∀ x, x ∈ l → x ∈ ODict.keys nodes.

Definition closed_adj (nodes : ODict.t Task) (a : adjacency) : Prop :=
  closed_in nodes a.1 ∧ closed_in nodes a.2.




(** The prerequisites that the numeric references of [dep] name among
    the nodes. *)
Definition rule_A_edges (nodes : ODict.t Task) (dep : string) : list string :=
  filter (fun p => ODict.mem nodes p = true)
    ((fun ref => "#" +:+ ref) <$> PyStr.findall_task_refs (PyStr.lower (PyStr.strip dep))).

(** The number of times [x] is in [l]. *)
Fixpoint count_of (x : string) (l : list string) : nat :=
  match l with
  | [] => 0
  | y :: l' => (if decide (x = y) then 1 else 0) + count_of x l'
  end.




Definition keyword_sets : list (list string * string) :=
  [(testing_keywords, "#1"); (aar_keywords, "#4")].

(** The keyword rule as the specification words it. *)
Definition keyword_rule_as_stated : Prop :=
  ∀ tasks t dep kws anchor,
    t ∈ tasks → dep ∈ dependencies t →
    rule_A_edges (build_nodes tasks) dep = [] →
    (kws, anchor) ∈ keyword_sets →
    any_keyword kws (PyStr.lower (PyStr.strip dep)) = true →
    anchor ∈ ODict.keys (build_nodes tasks) → task_key t ≠ anchor →
    task_key t ∈ neighbors (graph_adjacency tasks).1 anchor.

(** The edge from [p] to [t] is in both adjacencies. *)
Definition edge_pair (a : adjacency) (p t : string) : Prop :=
  t ∈ neighbors a.1 p ∧ p ∈ neighbors a.2 t.

(** Every prerequisite of [k] is a node whose task is completed. *)
Definition all_prereqs_completed (nodes : ODict.t Task)
    (reverse_edges : ODict.t (list string)) (k : string) : Prop :=
  ∀ p, p ∈ ODict.get_or reverse_edges k [] →
    ∃ tp, ODict.get nodes p = Some tp ∧ status tp = COMPLETED.

(** The classification as the specification words it, of every task of
    the list. *)
Definition readiness_as_stated (tasks : list Task) : Prop :=
  let nodes := build_nodes tasks in
  let r := (graph_adjacency tasks).2 in
  let blocked := (classify nodes r).1 in
  let ready := (classify nodes r).2 in
  (∀ t, t ∈ tasks → status t ≠ COMPLETED →
        ODict.get_or r (task_key t) [] = [] → task_key t ∈ ready)
  ∧ (∀ t, t ∈ tasks → status t ≠ COMPLETED →
          ODict.get_or r (task_key t) [] ≠ [] →
          (task_key t ∈ ready ↔ all_prereqs_completed nodes r (task_key t))
          ∧ (task_key t ∈ blocked ↔ ¬ all_prereqs_completed nodes r (task_key t)))
  ∧ (∀ t, t ∈ tasks → status t = COMPLETED →
          (task_key t ∉ blocked) ∧ (task_key t ∉ ready))
  ∧ (∀ k, ¬ (k ∈ blocked ∧ k ∈ ready)).

(** The test that sends an item of [nodes] to [blocked_tasks], and the
    one that sends it to [ready_tasks]. *)
Definition blocked_item (nodes : ODict.t Task) (reverse_edges : ODict.t (list string))
    (item : string * Task) : bool :=
  negb (is_completed (status item.2))
  && negb (prereq_completed nodes (ODict.get_or reverse_edges item.1 [])).

Definition ready_item (nodes : ODict.t Task) (reverse_edges : ODict.t (list string))
    (item : string * Task) : bool :=
  negb (is_completed (status item.2))
  && prereq_completed nodes (ODict.get_or reverse_edges item.1 []).

(** Each id of [l] but the last has the next one among its neighbours. *)
Definition chain (edges : ODict.t (list string)) (l : list string) : Prop :=
  ∀ l1 x y l2, l = l1 ++ x :: y :: l2 → y ∈ neighbors edges x.

(** A sequence [a, ..., a] along the edges. *)
Definition is_loop (edges : ODict.t (list string)) (c : list string) : Prop :=
  (∃ a mid, c = a :: mid ++ [a]) ∧ chain edges c.

(** The ids of the adjacency, as a set. *)
Definition universe_set (edges : ODict.t (list string)) : gset string :=
  list_to_set (universe edges).

(** Every cycle recorded so far is a loop. *)
Definition loops_only (edges : ODict.t (list string)) (st : dfs_state) : Prop :=
  Forall (is_loop edges) (cycles st).

(** A call that finds frames enough and forgets no visited node. *)
Definition sound_call (r : result (bool * dfs_state)) (st : dfs_state) : Prop :=
  r ≠ Raised RecursionError ∧ ∀ b st', r = Returned (b, st') → visited st ⊆ visited st'.

(** The edges into [n], counted with repetition, from the keys of [edges]
    that are not in [gone]. *)
Fixpoint incoming (edges : ODict.t (list string)) (gone : list string) (n : string) : nat :=
  match edges with
  | [] => 0
  | (u, l) :: edges' =>
      (if decide (u ∈ gone) then 0 else count_of n l) + incoming edges' gone n
  end.

(** [n] is on a cycle of the forward adjacency. *)
Definition on_cycle (edges : ODict.t (list string)) (n : string) : Prop :=
  tc (fun a b => b ∈ neighbors edges a) n n.

(** The ids that the worklist can hold. *)
Definition kahn_universe (nodes : ODict.t Task) (edges : ODict.t (list string)) : list string :=
  ODict.keys nodes ++ mjoin (ODict.values edges).

(** The invariant of the worklist loop, while the neighbours [rest] of the
    node popped last are still to be relaxed. *)
Record kahn_inv (nodes : ODict.t Task) (edges : ODict.t (list string))
    (rest : list string) (s : kahn_state) : Prop := mkKahnInv {
  inv_nodup : NoDup (queue s ++ popped s);
  inv_indeg : ∀ n,
    indeg (in_degree s) n = Z.of_nat (incoming edges (popped s) n + count_of n rest);
  inv_zero : ∀ q, q ∈ queue s ++ popped s →
    incoming edges (popped s) q + count_of q rest = 0;
  inv_univ : ∀ q, q ∈ queue s ++ popped s → q ∈ kahn_universe nodes edges;
  inv_rest : ∀ x, x ∈ rest → ∃ p, p ∈ popped s ∧ x ∈ neighbors edges p;
  inv_lp : ∀ n, n ∈ ODict.keys (longest_path s) →
    ∃ p, p ∈ popped s ∧ n ∈ neighbors edges p;
  inv_acyclic : ∀ q, q ∈ queue s ++ popped s → ¬ on_cycle edges q
}.

(** The exclusion of cyclic nodes as the specification words it. *)
Definition cyclic_nodes_have_no_distance : Prop :=
  ∀ tasks s n,
    kahn (build_nodes tasks) (graph_adjacency tasks).1 = Some s →
    on_cycle (graph_adjacency tasks).1 n →
    n ∉ ODict.keys (longest_path s).

(** [new] is [old] with some copies of the marker [m] appended. *)
Definition markers_appended (m : string) (old new : list string) : Prop :=
  ∃ k, new = old ++ replicate k m.

(** [t'] is [t] up to [blocks] and appended markers. *)
Definition annotated (t t' : Task) : Prop :=
  id t' = id t ∧ status t' = status t
  ∧ estimated_hours t' = estimated_hours t ∧ dependencies t' = dependencies t
  ∧ markers_appended "critical_path" (complexity_indicators t) (complexity_indicators t')
  ∧ markers_appended "blocked_by_dependencies" (risk_factors t) (risk_factors t')
  ∧ markers_appended "ready_for_execution" (success_patterns t) (success_patterns t').

(** The frame property as the specification words it. *)
Definition analysis_leaves_tasks_unchanged : Prop :=
  ∀ frames fuel h tasks h' out summary,
    enhance_task_analysis frames fuel h tasks = Returned (h', out, summary) →
    ∀ a, a ∈ tasks → h' a = h a.

(** A task without what the enhanced analysis writes. *)
Definition core (t : Task) : Task :=
  mkTask (id t) (status t) (estimated_hours t) (dependencies t) [] [] [] [].

Definition core_item (item : string * Task) : string * Task := (item.1, core item.2).

(** A graph whose nodes hold the cores of the tasks. *)
Definition graph_shape (g : DependencyGraph) : DependencyGraph :=
  mkGraph (core_item <$> nodes g) (edges g) (reverse_edges g) (graph_cycles g)
    (critical_path g) (blocked_tasks g) (ready_tasks g).

Definition outcome_shape (r : result DependencyGraph) : result DependencyGraph :=
  match r with
  | Returned g => Returned (graph_shape g)
  | Raised e => Raised e
  | OutOfFuel => OutOfFuel
  end.

(** ** Sample inputs *)

(** A task that carries no annotation yet. *)
Definition T (i : string) (s : TaskStatus) (h : float) (deps : list string) : Task :=
  mkTask i s h deps [] [] [] [].

Definition three_tasks : list Task :=
  [T "#1" PENDING 5 []; T "#2" PENDING 3 ["Task #1"]; T "#3" PENDING 2 ["Task #1"]].

Definition two_cycle : list Task :=
  [T "#1" PENDING 5 ["Task #2"]; T "#2" PENDING 3 ["Task #1"]].


Definition self_reference : list Task :=
  [T "#1" PENDING 1 ["Task #1"]].

Definition keyword_beside_task : list Task :=
  [T "#1" PENDING 1 []; T "#2" PENDING 1 ["testing tasks"]].

Definition keyword_tasks : list Task :=
  [T "#1" PENDING 1 []; T "#2" PENDING 1 ["Run the Pipeline"];
   T "#4" PENDING 1 []; T "#5" PENDING 1 ["needs tracking"]].

(** Two tasks with the key ["#7"]: the one listed last is the one that
    [nodes] keeps. *)
Definition shadowed_pending : list Task :=
  [T "7" PENDING 1 []; T "#7" COMPLETED 1 []].

Definition shadowed_completed : list Task :=
  [T "#7" COMPLETED 1 []; T "7" PENDING 1 []].

(** Tasks 1 and 2 wait for each other, and task 1 also waits for task 3. *)
Definition late_root : list Task :=
  [T "#1" PENDING 1 ["Task #2"; "Task #3"]; T "#2" PENDING 1 ["Task #1"];
   T "#3" PENDING 1 []].

(** Tasks 2 and 3 wait for each other, and task 2 also waits for task 1. *)
Definition fed_cycle : list Task :=
  [T "#1" PENDING 5 []; T "#2" PENDING 3 ["Task #1"; "Task #3"];
   T "#3" PENDING 2 ["Task #2"]].

(** Tasks 1 and 2 take no time and wait for each other and for task 3. *)
Definition zero_weight_cycle : list Task :=
  [T "#1" PENDING 0 ["Task #3"; "Task #2"]; T "#2" PENDING 0 ["Task #3"; "Task #1"];
   T "#3" PENDING 5 []].

Definition zero_weight_nodes : ODict.t Task := build_nodes zero_weight_cycle.

Definition zero_weight_edges : ODict.t (list string) :=
  (graph_adjacency zero_weight_cycle).1.

Definition zero_weight_distances : ODict.t float := [("#1", 5%float); ("#2", 5%float)].

(** A store whose objects are all the pending task ["#1"]. *)
Definition lone_heap : heap := fun _ => T "#1" PENDING 1 [].

Definition lone_heap_after : heap :=
  store 0 (mkTask "#1" PENDING 1 [] [] [] [] ["ready_for_execution"]) lone_heap.

(** Each task waits for the one before it. *)
Definition chain_of_four : list Task :=
  [T "#1" PENDING 1 []; T "#2" PENDING 1 ["Task #1"]; T "#3" PENDING 1 ["Task #2"];
   T "#4" PENDING 1 ["Task #3"]].

(** ** Vocabulary of the further properties *)

(** What lets the edge from [p] to [t] be inferred from the text [dep]:
    a numeric reference to [p], or a keyword of the first set with
    [p = "#1"], or a keyword of the second set and none of the first with
    [p = "#4"]; [p] is a node in each case. *)
Definition edge_reason (nodes : ODict.t Task) (dep p t : string) : Prop :=
  let dep_clean := PyStr.lower (PyStr.strip dep) in
  ODict.mem nodes p = true
  ∧ ((∃ ref, ref ∈ PyStr.findall_task_refs dep_clean ∧ p = "#" +:+ ref)
     ∨ (PyStr.contains "task" dep_clean = false
        ∧ any_keyword testing_keywords dep_clean = true ∧ p = "#1" ∧ t ≠ "#1")
     ∨ (PyStr.contains "task" dep_clean = false
        ∧ any_keyword testing_keywords dep_clean = false
        ∧ any_keyword aar_keywords dep_clean = true ∧ p = "#4" ∧ t ≠ "#4")).

(** Every forward edge of [a] has a reason in a dependency text of a task
    of the list. *)
Definition edges_explained (nodes : ODict.t Task) (tasks : list Task) (a : adjacency) : Prop :=
  ∀ p t, t ∈ neighbors a.1 p →
    ∃ task dep, task ∈ tasks ∧ task_key task = t
                ∧ dep ∈ dependencies task ∧ edge_reason nodes dep p t.

(** The reverse adjacency holds each forward edge as often as the
    forward one. *)
Definition mirrored (a : adjacency) : Prop :=
  ∀ p t, count_of t (neighbors a.1 p) = count_of p (neighbors a.2 t).

Definition numeric_tasks : list Task :=
  [T "#1" PENDING 1 []; T "#2" PENDING 1 ["after Task #1 and task 2"]].

(** No id is on a cycle of the adjacency. *)
Definition acyclic (edges : ODict.t (list string)) : Prop :=
  ∀ n, ¬ on_cycle edges n.

(** The nodes whose search is over: visited and no more on the stack. *)
Definition finished (st : dfs_state) : gset string := visited st ∖ rec_stack st.

(** The finished nodes only lead to finished nodes, and none of them is
    on a cycle. *)
Definition finished_ok (edges : ODict.t (list string)) (st : dfs_state) : Prop :=
  (∀ f n, f ∈ finished st → n ∈ neighbors edges f → n ∈ finished st)
  ∧ (∀ f, f ∈ finished st → ¬ on_cycle edges f).

(** The outcome of a search in an adjacency without cycle: [False], no
    cycle recorded and the stack as before, unless the frames run out. *)
Definition quiet (r : result (bool * dfs_state)) (stack : gset string) : Prop :=
  r = Raised RecursionError
  ∨ ∃ st', r = Returned (false, st') ∧ cycles st' = [] ∧ rec_stack st' = stack.

(** Two more facts that the worklist loop keeps: a node comes after its
    predecessors in [popped], and a node whose remaining in-degree is
    zero is in the queue or was taken from it. *)
Record kahn_order (nodes : ODict.t Task) (edges : ODict.t (list string))
    (rest : list string) (s : kahn_state) : Prop := mkKahnOrder {
  ord_sorted : ∀ l1 n l2 p,
    popped s = l1 ++ n :: l2 → n ∈ neighbors edges p → p ∈ l1;
  ord_zero : ∀ n, n ∈ ODict.keys nodes →
    incoming edges (popped s) n + count_of n rest = 0 → n ∈ queue s ++ popped s
}.

(** The number of times the reference [a] is in the list. *)
Fixpoint times (a : nat) (l : list nat) : nat :=
  match l with
  | [] => 0
  | b :: l' => (if decide (a = b) then 1 else 0) + times a l'
  end.

(** [n] copies of the marker when the key is in the list, none otherwise. *)
Definition markers (key : string) (l : list string) (n : nat) (m : string) : list string :=
  replicate (if bool_decide (key ∈ l) then n else 0) m.

(** The object at address 0 listed twice, and the store after the
    enhanced analysis of this list in [lone_heap]. *)
Definition twice_listed : list nat := [0; 0].

Definition lone_heap_twice : heap :=
  store 0 (mkTask "#1" PENDING 1 [] [] [] []
             ["ready_for_execution"; "ready_for_execution"]) lone_heap_after.

Example three_tasks_graph :
  (fun g => (edges g, reverse_edges g, graph_cycles g, critical_path g,
             blocked_tasks g, ready_tasks g)) <$>
    (match from_tasks 3 3 three_tasks with Returned g => Some g | _ => None end)
  = Some ([("#1", ["#2"; "#3"])], [("#2", ["#1"]); ("#3", ["#1"])], [],
          ["#1"; "#2"], ["#2"; "#3"], ["#1"]).
Proof. vm_compute. reflexivity. Qed.

Example two_cycle_graph :
  (fun g => (edges g, graph_cycles g, critical_path g, blocked_tasks g, ready_tasks g)) <$>
    (match from_tasks 3 3 two_cycle with Returned g => Some g | _ => None end)
  = Some ([("#2", ["#1"]); ("#1", ["#2"])], [["#2"; "#1"; "#2"]], [],
          ["#1"; "#2"], []).
Proof. vm_compute. reflexivity. Qed.

Example completed_prerequisite :
  (fun g => (blocked_tasks g, ready_tasks g)) <$>
    (match from_tasks 3 3 [T "#1" COMPLETED 1 []; T "#2" PENDING 1 ["Task #1"]] with
     | Returned g => Some g | _ => None end)
  = Some ([], ["#2"]).
Proof. vm_compute. reflexivity. Qed.

Example empty_summary :
  get_analysis_summary <$>
    (match from_tasks 0 0 [] with Returned g => Some g | _ => None end)
  = Some (mkSummary 0 0 0 0 0 0 [] [] []).
Proof. vm_compute. reflexivity. Qed.

(** With one frame the search from ["#1"] cannot call [dfs] on ["#2"]. *)
Example one_frame :
  from_tasks 1 3 three_tasks = Raised RecursionError.
Proof. vm_compute. reflexivity. Qed.

(** The search along a chain of four tasks needs four frames, although
    the chain has no cycle. *)
Example chain_needs_frames :
  from_tasks 3 4 chain_of_four = Raised RecursionError
  ∧ (graph_cycles <$>
       (match from_tasks 4 4 chain_of_four with Returned g => Some g | _ => None end))
    = Some [].
Proof. split; vm_compute; reflexivity. Qed.

Example findall_sample :
  PyStr.findall_task_refs "task #1, task 23 and task#x task  #4task5"
  = ["1"; "23"; "4"; "5"].
Proof. vm_compute. reflexivity. Qed.

Example normalize_sample :
  (normalize_id "##7#", normalize_id "7", normalize_id "7#", normalize_id "#")
  = ("#7", "#7", "#7#", "#").
Proof. vm_compute. reflexivity. Qed.

(** * Properties *)

(** ** Dictionaries *)

Section odict.
Context {V : Type}.
Implicit Types (d : ODict.t V) (k : string) (v : V).

Lemma get_set_eq d k v : ODict.get (ODict.set k v d) k = Some v.
Proof.
  induction d as [|[k' v'] d IH]; csimpl.
  - by rewrite decide_True.
  - destruct (decide (k = k')) as [->|Hne]; csimpl.
    + by rewrite decide_True.
    + by rewrite decide_False.
Qed.

Lemma get_set_ne d k k' v : k ≠ k' → ODict.get (ODict.set k v d) k' = ODict.get d k'.
Proof.
  intros Hne. induction d as [|[k0 v0] d IH]; csimpl.
  - by rewrite decide_False.
  - destruct (decide (k = k0)) as [->|Hne0]; csimpl.
    + by rewrite !decide_False.
    + destruct (decide (k' = k0)); [done | apply IH].
Qed.

Lemma get_set d k k' v :
  ODict.get (ODict.set k v d) k' = if decide (k = k') then Some v else ODict.get d k'.
Proof.
  destruct (decide (k = k')) as [->|Hne]; [apply get_set_eq | by apply get_set_ne].
Qed.

Lemma elem_of_keys d k : k ∈ ODict.keys d ↔ is_Some (ODict.get d k).
Proof.
  unfold ODict.keys. induction d as [|[k' v'] d IH]; csimpl.
  - rewrite elem_of_nil. split; [done | by intros [? ?]].
  - rewrite elem_of_cons, IH. destruct (decide (k = k')) as [->|Hne].
    + split; [eauto | by left].
    + split; [by intros [?|?] | by right].
Qed.

Lemma mem_keys d k : ODict.mem d k = true ↔ k ∈ ODict.keys d.
Proof.
  rewrite elem_of_keys. unfold ODict.mem.
  destruct (ODict.get d k); split; first [done | eauto | by intros [? ?]].
Qed.

Lemma keys_set d k v :
  ODict.keys (ODict.set k v d)
  = if ODict.mem d k then ODict.keys d else ODict.keys d ++ [k].
Proof.
  unfold ODict.keys, ODict.mem. induction d as [|[k' v'] d IH]; csimpl; [done|].
  destruct (decide (k = k')) as [->|Hne]; csimpl; [done|].
  rewrite IH. by destruct (ODict.get d k).
Qed.

Lemma elem_of_keys_set d k k' v :
  k' ∈ ODict.keys (ODict.set k v d) ↔ k' = k ∨ k' ∈ ODict.keys d.
Proof.
  rewrite !elem_of_keys, get_set. destruct (decide (k = k')) as [->|Hne].
  - split; [by left | eauto].
  - split; [by right | by intros [?|?]].
Qed.

Lemma NoDup_keys_set d k v : NoDup (ODict.keys d) → NoDup (ODict.keys (ODict.set k v d)).
Proof.
  intros Hnd. rewrite keys_set. destruct (ODict.mem d k) eqn:Hm; [done|].
  apply NoDup_app. split_and!; [done | | apply NoDup_singleton].
  intros x Hx ->%list_elem_of_singleton.
  apply mem_keys in Hx. congruence.
Qed.

Lemma get_Some_elem_of d k v :
  NoDup (ODict.keys d) → ODict.get d k = Some v ↔ (k, v) ∈ d.
Proof.
  unfold ODict.keys. induction d as [|[k' v'] d IH]; csimpl; intros Hnd.
  - by rewrite elem_of_nil.
  - apply NoDup_cons in Hnd as [Hk' Hnd]. rewrite elem_of_cons.
    destruct (decide (k = k')) as [->|Hne].
    + split; [intros [= ->]; by left|].
      intros [[= ->]|Hin]; [done|].
      destruct Hk'. apply list_elem_of_fmap. by exists (k', v).
    + rewrite (IH Hnd). split; [by right | by intros [[= ? ?]|?]].
Qed.

End odict.

Lemma get_or_elem_of (d : ODict.t (list string)) k x :
  x ∈ ODict.get_or d k [] → k ∈ ODict.keys d.
Proof.
  unfold ODict.get_or. rewrite elem_of_keys.
  destruct (ODict.get d k); csimpl; [eauto | by rewrite elem_of_nil].
Qed.

(** ** Strings *)

Lemma is_hash_spec c : PyStr.is_hash c = true ↔ c = "#"%char.
Proof.
  split; [|by intros ->].
  destruct c as [[] [] [] [] [] [] [] []]; vm_compute; congruence.
Qed.

Lemma append_String a s t : String a s +:+ t = String a (s +:+ t).
Proof. reflexivity. Qed.

Lemma append_empty t : "" +:+ t = t.
Proof. reflexivity. Qed.

Lemma drop_while_spec p s :
  s = PyStr.take_while p s +:+ PyStr.drop_while p s
  ∧ all_chars p (PyStr.take_while p s) = true
  ∧ ∀ c, first_char (PyStr.drop_while p s) = Some c → p c = false.
Proof.
  induction s as [|a s (IH1 & IH2 & IH3)]; simpl; [done|].
  destruct (p a) eqn:Hp; simpl.
  - rewrite Hp, append_String. split_and!; [by f_equal | done | done].
  - split_and!; [done | done | by intros c [= <-]].
Qed.

Lemma drop_while_end_spec p s :
  ∃ t, s = PyStr.drop_while_end p s +:+ t
    ∧ all_chars p t = true
    ∧ (∀ c, last_char (PyStr.drop_while_end p s) = Some c → p c = false)
    ∧ (∀ c, first_char (PyStr.drop_while_end p s) = Some c → first_char s = Some c).
Proof.
  induction s as [|a s (t & IH1 & IH2 & IH3 & IH4)]; simpl.
  - by exists "".
  - destruct (PyStr.drop_while_end p s) as [|b r] eqn:Hr; simpl.
    + destruct (p a) eqn:Hp; simpl.
      * exists (String a s). rewrite append_empty in IH1. subst t.
        simpl. rewrite Hp. by split_and!.
      * exists t. rewrite append_String.
        split_and!; [by f_equal | done | by intros c [= <-] | done].
    + exists t. rewrite append_String. split_and!; [by f_equal | done | | done].
      intros c Hc. apply IH3. simpl. by destruct (last_char r).
Qed.

(** An id that starts with ['#'] is some ['#'] characters, a core that
    neither starts nor ends with ['#'], and some ['#'] characters; its key
    is ['#'] and the core. *)
Lemma normalize_id_hash i :
  PyStr.startswith "#" i = true →
  ∃ l core r,
    i = l +:+ core +:+ r
    ∧ all_chars PyStr.is_hash l = true ∧ all_chars PyStr.is_hash r = true
    ∧ first_char core ≠ Some "#"%char ∧ last_char core ≠ Some "#"%char
    ∧ normalize_id i = "#" +:+ core.
Proof.
  intros Hi. unfold normalize_id, PyStr.strip_with. rewrite Hi.
  destruct (drop_while_spec PyStr.is_hash i) as (H1 & H2 & H3).
  destruct (drop_while_end_spec PyStr.is_hash (PyStr.drop_while PyStr.is_hash i))
    as (r & H4 & H5 & H6 & H7).
  exists (PyStr.take_while PyStr.is_hash i),
    (PyStr.drop_while_end PyStr.is_hash (PyStr.drop_while PyStr.is_hash i)), r.
  split_and!; [by rewrite <- H4 | done | done | | | done].
  - intros Hc. apply H7, H3 in Hc. by vm_compute in Hc.
  - intros Hc. apply H6 in Hc. by vm_compute in Hc.
Qed.

Lemma normalize_id_plain i :
  PyStr.startswith "#" i = false → normalize_id i = "#" +:+ i.
Proof. intros Hi. unfold normalize_id. by rewrite Hi. Qed.

(** ** Nodes *)

Lemma get_nodes_from d tasks k :
  ODict.get (nodes_from d tasks) k
  = match last_with_key k tasks with
    | Some t => Some t
    | None => ODict.get d k
    end.
Proof.
  revert d. induction tasks as [|t tasks IH]; intros d; simpl; [done|].
  unfold nodes_from in *. simpl. rewrite IH, get_set.
  destruct (last_with_key k tasks); [done|].
  by destruct (decide (task_key t = k)).
Qed.

Lemma NoDup_nodes_from d tasks :
  NoDup (ODict.keys d) → NoDup (ODict.keys (nodes_from d tasks)).
Proof.
  revert d. induction tasks as [|t tasks IH]; intros d Hd; [done|].
  apply IH. by apply NoDup_keys_set.
Qed.

Lemma NoDup_build_nodes tasks : NoDup (ODict.keys (build_nodes tasks)).
Proof. apply NoDup_nodes_from. constructor. Qed.

Lemma last_with_key_Some k tasks :
  is_Some (last_with_key k tasks) ↔ ∃ t, t ∈ tasks ∧ task_key t = k.
Proof.
  induction tasks as [|t tasks IH]; simpl.
  - split; [by intros [? ?] | intros (? & []%elem_of_nil & _)].
  - destruct (last_with_key k tasks) as [t'|] eqn:Hl.
    + split; [|eauto]. intros _.
      destruct (proj1 IH) as (t0 & ? & ?); [eauto|].
      exists t0. split; [by right | done].
    + destruct (decide (task_key t = k)) as [Hk|Hk].
      * split; [|eauto]. intros _. exists t. split; [by left | done].
      * split; [by intros [? ?]|]. intros (t0 & [->|Hin]%elem_of_cons & Ht0); [done|].
        apply IH. eauto.
Qed.

Lemma last_with_key_key k tasks t : last_with_key k tasks = Some t → task_key t = k.
Proof.
  induction tasks as [|t0 tasks IH]; simpl; [done|].
  destruct (last_with_key k tasks); [by intros [= <-]; apply IH|].
  destruct (decide (task_key t0 = k)); [by intros [= <-] | done].
Qed.

Lemma elem_of_keys_build_nodes tasks k :
  k ∈ ODict.keys (build_nodes tasks) ↔ ∃ t, t ∈ tasks ∧ task_key t = k.
Proof.
  rewrite elem_of_keys. unfold build_nodes. rewrite get_nodes_from.
  rewrite <- last_with_key_Some. simpl.
  destruct (last_with_key k tasks); split; first [done | eauto | by intros [? ?]].
Qed.

Lemma task_key_in_nodes tasks t : t ∈ tasks → task_key t ∈ ODict.keys (build_nodes tasks).
Proof. intros Ht. apply elem_of_keys_build_nodes. eauto. Qed.

Lemma get_build_nodes tasks k : ODict.get (build_nodes tasks) k = last_with_key k tasks.
Proof.
  unfold build_nodes. rewrite get_nodes_from. simpl. by destruct (last_with_key k tasks).
Qed.

Lemma last_with_key_split pre t post :
  Forall (fun t' => task_key t' ≠ task_key t) post →
  last_with_key (task_key t) (pre ++ t :: post) = Some t.
Proof.
  intros Hpost. induction pre as [|t0 pre IH]; simpl.
  - assert (last_with_key (task_key t) post = None) as ->.
    { destruct (last_with_key (task_key t) post) as [t'|] eqn:Hl; [|done].
      assert (Hin : ∃ t0, t0 ∈ post ∧ task_key t0 = task_key t).
      { apply last_with_key_Some. eauto. }
      destruct Hin as (t0 & Hin & Hk).
      rewrite Forall_forall in Hpost. by destruct (Hpost t0 Hin). }
    by rewrite decide_True.
  - by rewrite IH.
Qed.

(** C10.  The keys of [nodes] are the normalized ids of the tasks; the
    task stored at a key is the last task of the input with that key; an
    id that starts with ['#'] loses every ['#'] at both ends and gets one
    ['#'] in front, any other id gets ['#'] in front. *)
Theorem nodes_keys_normalized (tasks : list Task) :
  (∀ k, k ∈ ODict.keys (build_nodes tasks) ↔ ∃ t, t ∈ tasks ∧ k = normalize_id (id t))
  ∧ (∀ k, ODict.get (build_nodes tasks) k = last_with_key k tasks)
  ∧ (∀ pre t post,
       tasks = pre ++ t :: post → Forall (fun t' => task_key t' ≠ task_key t) post →
       ODict.get (build_nodes tasks) (task_key t) = Some t)
  ∧ (∀ i,
       if PyStr.startswith "#" i
       then ∃ l core r,
              i = l +:+ core +:+ r
              ∧ all_chars PyStr.is_hash l = true ∧ all_chars PyStr.is_hash r = true
              ∧ first_char core ≠ Some "#"%char ∧ last_char core ≠ Some "#"%char
              ∧ normalize_id i = "#" +:+ core
       else normalize_id i = "#" +:+ i).
Proof.
  split_and!.
  - intros k. rewrite elem_of_keys_build_nodes. unfold task_key.
    split; intros (t & Ht & Hk); eauto.
  - apply get_build_nodes.
  - intros pre t post -> Hpost. rewrite get_build_nodes. by apply last_with_key_split.
  - intros i. destruct (PyStr.startswith "#" i) eqn:Hi.
    + by apply normalize_id_hash.
    + by apply normalize_id_plain.
Qed.

(** ** Adjacency *)

Lemma fold_left_inv {A B} (P : A → Prop) (f : A → B → A) (l : list B) (a : A) :
  P a → (∀ a b, b ∈ l → P a → P (f a b)) → P (fold_left f l a).
Proof.
  revert a. induction l as [|b l IH]; intros a Ha Hf; simpl; [done|].
  apply IH.
  - apply Hf; [by left | done].
  - intros a' b' Hb'. apply Hf. by right.
Qed.

Lemma neighbors_append_at d k x k' x' :
  x' ∈ neighbors (append_at k x d) k' ↔ x' ∈ neighbors d k' ∨ (k' = k ∧ x' = x).
Proof.
  unfold neighbors, append_at, ODict.get_or. rewrite get_set.
  destruct (decide (k = k')) as [->|Hne]; simpl.
  - rewrite elem_of_app, list_elem_of_singleton. intuition.
  - intuition congruence.
Qed.

Section closure.
Context (nodes : ODict.t Task).

Lemma closed_in_get_or d k x :
  closed_in nodes d → x ∈ ODict.get_or d k [] → x ∈ ODict.keys nodes.
Proof.
  intros Hd. unfold ODict.get_or.
  destruct (ODict.get d k) as [l|] eqn:Hl; simpl; [|by rewrite elem_of_nil].
  by apply (Hd k l).
Qed.

Lemma closed_append_at d k x :
  closed_in nodes d → k ∈ ODict.keys nodes → x ∈ ODict.keys nodes →
  closed_in nodes (append_at k x d).
Proof.
  intros Hd Hk Hx k' l. unfold append_at. rewrite get_set.
  destruct (decide (k = k')) as [<-|Hne]; [|apply Hd].
  intros [= <-]. split; [done|].
  intros y [Hy| ->%list_elem_of_singleton]%elem_of_app; [|done].
  by apply (closed_in_get_or d k).
Qed.

Lemma closed_add_edge a p t :
  closed_adj nodes a → p ∈ ODict.keys nodes → t ∈ ODict.keys nodes →
  closed_adj nodes (add_edge p t a).
Proof. intros [H1 H2] Hp Ht. split; simpl; by apply closed_append_at. Qed.

Lemma closed_add_dep a task_id dep :
  task_id ∈ ODict.keys nodes → closed_adj nodes a → closed_adj nodes (add_dep nodes task_id a dep).
Proof.
  intros Ht Ha. unfold add_dep.
  destruct (PyStr.contains "task" _).
  - apply fold_left_inv; [done|]. intros a' ref _ Ha'. unfold add_ref.
    destruct (ODict.mem nodes _) eqn:Hm; [|done].
    apply closed_add_edge; [done | by apply mem_keys | done].
  - unfold add_anchor.
    destruct (any_keyword testing_keywords _).
    + destruct (ODict.mem nodes "#1") eqn:Hm; simpl; [|done].
      destruct (negb _); [|done].
      apply closed_add_edge; [done | by apply mem_keys | done].
    + destruct (any_keyword aar_keywords _); [|done].
      destruct (ODict.mem nodes "#4") eqn:Hm; simpl; [|done].
      destruct (negb _); [|done].
      apply closed_add_edge; [done | by apply mem_keys | done].
Qed.

Lemma closed_add_task a t :
  task_key t ∈ ODict.keys nodes → closed_adj nodes a → closed_adj nodes (add_task nodes a t).
Proof.
  intros Ht Ha. unfold add_task. apply fold_left_inv; [done|].
  intros a' dep _. by apply closed_add_dep.
Qed.

End closure.

Lemma closed_graph_adjacency tasks : closed_adj (build_nodes tasks) (graph_adjacency tasks).
Proof.
  unfold graph_adjacency, build_edges. apply fold_left_inv.
  - split; intros k l; simpl; done.
  - intros a t Ht. apply closed_add_task. by apply task_key_in_nodes.
Qed.


(** A task whose reference names its own number is its own neighbour. *)
Lemma self_reference_edge :
  graph_adjacency self_reference = ([("#1", ["#1"])], [("#1", ["#1"])]).
Proof. vm_compute. reflexivity. Qed.

(** ** Edges are only added *)

Lemma fold_left_elem {A B} (P : A → Prop) (f : A → B → A) (l : list B) (a : A) (b : B) :
  b ∈ l → (∀ a, P (f a b)) → (∀ a b', P a → P (f a b')) → P (fold_left f l a).
Proof.
  intros Hb Hnew Hkeep. revert a.
  induction l as [|b0 l IH]; intros a; [by apply elem_of_nil in Hb|].
  simpl. apply elem_of_cons in Hb as [<-|Hb]; [|by apply IH].
  apply fold_left_inv; [apply Hnew | intros a' b' _; apply Hkeep].
Qed.

Section growth.
Context (nodes : ODict.t Task) (p t : string).

Lemma add_edge_keeps a p' t' : edge_pair a p t → edge_pair (add_edge p' t' a) p t.
Proof.
  intros [H1 H2]. split; simpl; apply neighbors_append_at; by left.
Qed.

Lemma add_edge_new a : edge_pair (add_edge p t a) p t.
Proof. split; simpl; apply neighbors_append_at; by right. Qed.

Lemma add_ref_keeps a task_id ref :
  edge_pair a p t → edge_pair (add_ref nodes task_id a ref) p t.
Proof.
  intros Ha. unfold add_ref. destruct (ODict.mem nodes _); [|done].
  by apply add_edge_keeps.
Qed.

Lemma add_anchor_keeps a anchor task_id :
  edge_pair a p t → edge_pair (add_anchor nodes anchor task_id a) p t.
Proof.
  intros Ha. unfold add_anchor. destruct (_ && _); [|done].
  by apply add_edge_keeps.
Qed.

Lemma add_dep_keeps a task_id dep :
  edge_pair a p t → edge_pair (add_dep nodes task_id a dep) p t.
Proof.
  intros Ha. unfold add_dep. destruct (PyStr.contains "task" _).
  - apply fold_left_inv; [done|]. intros a' ref _. apply add_ref_keeps.
  - destruct (any_keyword testing_keywords _); [by apply add_anchor_keeps|].
    destruct (any_keyword aar_keywords _); [by apply add_anchor_keeps | done].
Qed.

Lemma add_task_keeps a t' : edge_pair a p t → edge_pair (add_task nodes a t') p t.
Proof.
  intros Ha. unfold add_task. apply fold_left_inv; [done|].
  intros a' dep _. apply add_dep_keeps.
Qed.

Lemma add_anchor_new a :
  ODict.mem nodes p = true → t ≠ p → edge_pair (add_anchor nodes p t a) p t.
Proof.
  intros Hm Hne. unfold add_anchor. rewrite Hm, bool_decide_eq_false_2 by done.
  apply add_edge_new.
Qed.

End growth.

(** The text ["testing tasks"] holds a keyword of the first set and no
    number, yet gives no edge: the word [task] in it sends it to the
    numeric rule. *)
Lemma keyword_rule_fails : ¬ keyword_rule_as_stated.
Proof.
  intros H.
  specialize (H keyword_beside_task (T "#2" PENDING 1 ["testing tasks"])
                "testing tasks" testing_keywords "#1").
  assert (Hin : "#2" ∈ neighbors (graph_adjacency keyword_beside_task).1 "#1").
  { apply H.
    - right. left.
    - left.
    - vm_compute. reflexivity.
    - left.
    - vm_compute. reflexivity.
    - apply mem_keys. vm_compute. reflexivity.
    - vm_compute. discriminate. }
  vm_compute in Hin. by apply elem_of_nil in Hin.
Qed.

(** C5, amended.  For a dependency text whose stripped, lowercased form
    does not contain [task]: a keyword of the first set gives the edge
    from ["#1"] to the task; no keyword of the first set and one of the
    second gives the edge from ["#4"]; each provided the anchor is a node
    and is not the task itself. *)
Theorem keyword_rule (tasks : list Task) (t : Task) (dep : string) :
  t ∈ tasks → dep ∈ dependencies t →
  PyStr.contains "task" (PyStr.lower (PyStr.strip dep)) = false →
  (any_keyword testing_keywords (PyStr.lower (PyStr.strip dep)) = true →
   ODict.mem (build_nodes tasks) "#1" = true → task_key t ≠ "#1" →
   edge_pair (graph_adjacency tasks) "#1" (task_key t))
  ∧ (any_keyword testing_keywords (PyStr.lower (PyStr.strip dep)) = false →
     any_keyword aar_keywords (PyStr.lower (PyStr.strip dep)) = true →
     ODict.mem (build_nodes tasks) "#4" = true → task_key t ≠ "#4" →
     edge_pair (graph_adjacency tasks) "#4" (task_key t)).
Proof.
  intros Ht Hdep Htask.
  assert (Hstep : ∀ anchor,
    (∀ a, edge_pair (add_dep (build_nodes tasks) (task_key t) a dep) anchor (task_key t)) →
    edge_pair (graph_adjacency tasks) anchor (task_key t)).
  { intros anchor Hnew. unfold graph_adjacency, build_edges.
    apply (fold_left_elem (fun a => edge_pair a anchor (task_key t)) _ _ _ t Ht).
    - intros a. unfold add_task.
      apply (fold_left_elem (fun a => edge_pair a anchor (task_key t)) _ _ _ dep Hdep);
        [done|].
      intros a' dep'. apply add_dep_keeps.
    - intros a t'. apply add_task_keeps. }
  split.
  - intros Hkw Hm Hne. apply Hstep. intros a. unfold add_dep.
    rewrite Htask, Hkw. by apply add_anchor_new.
  - intros Hkw1 Hkw2 Hm Hne. apply Hstep. intros a. unfold add_dep.
    rewrite Htask, Hkw1, Hkw2. by apply add_anchor_new.
Qed.

Lemma keyword_rule_witness :
  edge_pair (graph_adjacency keyword_tasks) "#1" "#2"
  ∧ edge_pair (graph_adjacency keyword_tasks) "#4" "#5".
Proof.
  split.
  - apply (keyword_rule keyword_tasks (T "#2" PENDING 1 ["Run the Pipeline"])
             "Run the Pipeline");
      [right; left | left | reflexivity | reflexivity | reflexivity | discriminate].
  - apply (keyword_rule keyword_tasks (T "#5" PENDING 1 ["needs tracking"])
             "needs tracking");
      [do 3 right; left | left | reflexivity | reflexivity | reflexivity
      | reflexivity | discriminate].
Defined.

(** ** Readiness *)

Lemma is_completed_spec s : is_completed s = true ↔ s = COMPLETED.
Proof. by destruct s. Qed.

Lemma is_completed_false s : is_completed s = false ↔ s ≠ COMPLETED.
Proof. destruct s; split; (done || congruence). Qed.

Section readiness.
Context (nodes : ODict.t Task) (r : ODict.t (list string)).

Lemma prereq_completed_spec prereqs :
  (∀ p, p ∈ prereqs → p ∈ ODict.keys nodes) →
  prereq_completed nodes prereqs = true
  ↔ ∀ p, p ∈ prereqs → ∃ tp, ODict.get nodes p = Some tp ∧ status tp = COMPLETED.
Proof.
  intros Hcl. unfold prereq_completed. rewrite forallb_forall. split.
  - intros H p Hp. specialize (H p).
    destruct (ODict.get nodes p) as [tp|] eqn:Hget.
    + exists tp. split; [done|]. apply is_completed_spec, H.
      apply list_elem_of_In, list_elem_of_filter. split; [|done].
      unfold ODict.mem. by rewrite Hget.
    + apply Hcl, elem_of_keys in Hp as [? ?]. congruence.
  - intros H p [_ Hp]%list_elem_of_In%list_elem_of_filter.
    destruct (H p Hp) as (tp & -> & Hs). by apply is_completed_spec.
Qed.

Lemma classify_step_eq acc item :
  classify_step nodes r acc item
  = (acc.1 ++ (if blocked_item nodes r item then [item.1] else []),
     acc.2 ++ (if ready_item nodes r item then [item.1] else [])).
Proof.
  destruct acc as [b rd], item as [k t]. unfold classify_step, blocked_item, ready_item.
  simpl. destruct (is_completed (status t)); simpl; [by rewrite !app_nil_r|].
  destruct (ODict.get_or r k []) as [|p ps] eqn:Hp.
  - simpl. by rewrite app_nil_r.
  - destruct (prereq_completed nodes (p :: ps)); simpl; by rewrite app_nil_r.
Qed.

Lemma classify_fold items acc :
  fold_left (classify_step nodes r) items acc
  = (acc.1 ++ (filter (fun item => blocked_item nodes r item = true) items).*1,
     acc.2 ++ (filter (fun item => ready_item nodes r item = true) items).*1).
Proof.
  revert acc. induction items as [|item items IH]; intros acc.
  - simpl. rewrite !app_nil_r. by destruct acc.
  - simpl. rewrite IH, classify_step_eq. simpl. rewrite !filter_cons.
    destruct (blocked_item nodes r item), (ready_item nodes r item);
      repeat case_decide; try done; csimpl; by rewrite <- ?app_assoc, ?app_nil_r.
Qed.

Lemma classify_eq :
  classify nodes r
  = ((filter (fun item => blocked_item nodes r item = true) nodes).*1,
     (filter (fun item => ready_item nodes r item = true) nodes).*1).
Proof. unfold classify. by rewrite classify_fold. Qed.

Lemma NoDup_filter_keys (P : string * Task → Prop) `{∀ x, Decision (P x)} :
  NoDup (ODict.keys nodes) → NoDup (filter P nodes).*1.
Proof.
  intros Hnd. apply (sublist_NoDup _ (ODict.keys nodes)); [exact Hnd|].
  unfold ODict.keys. apply fmap_sublist, sublist_filter.
Qed.

Lemma elem_of_filter_keys (P : string * Task → Prop) `{∀ x, Decision (P x)} k :
  NoDup (ODict.keys nodes) →
  k ∈ (filter P nodes).*1 ↔ ∃ t, ODict.get nodes k = Some t ∧ P (k, t).
Proof.
  intros Hnd. rewrite list_elem_of_fmap. split.
  - intros ([k' t] & -> & [HP Hin]%list_elem_of_filter).
    exists t. split; [by apply get_Some_elem_of | done].
  - intros (t & Hget & HP). exists (k, t). split; [done|].
    apply list_elem_of_filter. split; [done | by apply get_Some_elem_of].
Qed.

End readiness.

Section readiness_of_graph.
Context (tasks : list Task).
Let nodes := build_nodes tasks.
Let r := (graph_adjacency tasks).2.

Lemma prereqs_are_nodes k p : p ∈ ODict.get_or r k [] → p ∈ ODict.keys nodes.
Proof. apply closed_in_get_or, closed_graph_adjacency. Qed.

Lemma prereq_completed_graph k :
  prereq_completed nodes (ODict.get_or r k []) = true ↔ all_prereqs_completed nodes r k.
Proof. apply prereq_completed_spec, prereqs_are_nodes. Qed.

Lemma ready_item_spec k t :
  ready_item nodes r (k, t) = true
  ↔ status t ≠ COMPLETED ∧ all_prereqs_completed nodes r k.
Proof.
  unfold ready_item. simpl.
  by rewrite andb_true_iff, negb_true_iff, prereq_completed_graph, is_completed_false.
Qed.

Lemma blocked_item_spec k t :
  blocked_item nodes r (k, t) = true
  ↔ status t ≠ COMPLETED ∧ ¬ all_prereqs_completed nodes r k.
Proof.
  unfold blocked_item. simpl.
  rewrite andb_true_iff, !negb_true_iff, <- prereq_completed_graph, is_completed_false.
  destruct (prereq_completed nodes _); intuition congruence.
Qed.

(** C6, amended.  The classification is of the nodes, each with the task
    that [nodes] keeps for it.  The ready tasks are the nodes that are
    not completed and whose prerequisites are all completed (none, when
    there is no prerequisite edge); the blocked tasks are the nodes that
    are not completed and have a prerequisite that is not completed; a
    completed node is in neither list, a node that is not completed is in
    exactly one, and no id is listed twice.  The last conjunct says the
    same of an input task, which is the task of its node unless a later
    task of the list has the same key. *)
Theorem readiness_partition :
  let blocked := (classify nodes r).1 in
  let ready := (classify nodes r).2 in
  (∀ k, k ∈ ready ↔
        ∃ t, ODict.get nodes k = Some t ∧ status t ≠ COMPLETED
             ∧ all_prereqs_completed nodes r k)
  ∧ (∀ k, k ∈ blocked ↔
          ∃ t, ODict.get nodes k = Some t ∧ status t ≠ COMPLETED
               ∧ ¬ all_prereqs_completed nodes r k)
  ∧ (∀ k t, ODict.get nodes k = Some t → status t ≠ COMPLETED →
            ODict.get_or r k [] = [] → k ∈ ready)
  ∧ (∀ k t, ODict.get nodes k = Some t → status t = COMPLETED →
            (k ∉ blocked) ∧ (k ∉ ready))
  ∧ (∀ k t, ODict.get nodes k = Some t → status t ≠ COMPLETED →
            k ∈ blocked ∨ k ∈ ready)
  ∧ (∀ k, ¬ (k ∈ blocked ∧ k ∈ ready))
  ∧ NoDup blocked ∧ NoDup ready
  ∧ (∀ pre t post,
       tasks = pre ++ t :: post → Forall (fun t' => task_key t' ≠ task_key t) post →
       if is_completed (status t)
       then (task_key t ∉ blocked) ∧ (task_key t ∉ ready)
       else (task_key t ∈ ready ↔ all_prereqs_completed nodes r (task_key t))
            ∧ (task_key t ∈ blocked ↔ ¬ all_prereqs_completed nodes r (task_key t))).
Proof.
  intros blocked ready. subst blocked ready. rewrite classify_eq. simpl.
  pose proof (NoDup_build_nodes tasks : NoDup (ODict.keys nodes)) as Hnd.
  assert (Hready : ∀ k,
    k ∈ (filter (fun item => ready_item nodes r item = true) nodes).*1 ↔
    ∃ t, ODict.get nodes k = Some t ∧ status t ≠ COMPLETED
         ∧ all_prereqs_completed nodes r k).
  { intros k. rewrite elem_of_filter_keys by done.
    split; intros (t & Hget & Ht); exists t; split; try done; by apply ready_item_spec. }
  assert (Hblocked : ∀ k,
    k ∈ (filter (fun item => blocked_item nodes r item = true) nodes).*1 ↔
    ∃ t, ODict.get nodes k = Some t ∧ status t ≠ COMPLETED
         ∧ ¬ all_prereqs_completed nodes r k).
  { intros k. rewrite elem_of_filter_keys by done.
    split; intros (t & Hget & Ht); exists t; split; try done; by apply blocked_item_spec. }
  split_and!; [done | done | | | | | by apply NoDup_filter_keys
                | by apply NoDup_filter_keys |].
  - intros k t Hget Hs Hnil. apply Hready. exists t. split_and!; [done | done|].
    intros p. rewrite Hnil. by intros ?%elem_of_nil.
  - intros k t Hget Hs. rewrite Hblocked, Hready.
    split; intros (t' & Hget' & Hs' & _); congruence.
  - intros k t Hget Hs. rewrite Hblocked, Hready.
    destruct (prereq_completed nodes (ODict.get_or r k [])) eqn:Hp.
    + right. exists t. split_and!; [done | done | by apply prereq_completed_graph].
    + left. exists t. split_and!; [done | done |].
      intros Hall%prereq_completed_graph. congruence.
  - intros k. rewrite Hblocked, Hready.
    intros [(t & _ & _ & Hn) (t' & _ & _ & Hy)]. by apply Hn.
  - intros pre t post Htasks Hpost.
    assert (Hget : ODict.get nodes (task_key t) = Some t).
    { subst nodes. rewrite get_build_nodes, Htasks. by apply last_with_key_split. }
    destruct (is_completed (status t)) eqn:Hs; rewrite Hblocked, Hready.
    + apply is_completed_spec in Hs.
      split; intros (t' & Hget' & Hs' & _); congruence.
    + apply is_completed_false in Hs. split; split.
      * intros (t' & _ & _ & Hall). done.
      * intros Hall. by exists t.
      * intros (t' & _ & _ & Hall). done.
      * intros Hall. by exists t.
Qed.

End readiness_of_graph.

(** Of two tasks with the same key the classification sees the later one
    only: a pending task without prerequisites that a completed task
    shadows is in neither list, and the id of a completed task that a
    pending one shadows is ready. *)
Lemma shadowed_task_misclassified :
  ¬ readiness_as_stated shadowed_pending ∧ ¬ readiness_as_stated shadowed_completed.
Proof.
  split.
  - intros (Hready & _).
    specialize (Hready (T "7" PENDING 1 [])).
    assert (Hin : task_key (T "7" PENDING 1 [])
                  ∈ (classify (build_nodes shadowed_pending)
                       (graph_adjacency shadowed_pending).2).2).
    { apply Hready; [by left | done | reflexivity]. }
    vm_compute in Hin. by apply elem_of_nil in Hin.
  - intros (_ & _ & Hdone & _).
    destruct (Hdone (T "#7" COMPLETED 1 [])) as [_ Hnot]; [by left | done|].
    apply Hnot. vm_compute. by left.
Qed.

(** What a returned graph holds. *)
Lemma from_tasks_Returned frames fuel tasks g :
  from_tasks frames fuel tasks = Returned g →
  nodes g = build_nodes tasks
  ∧ edges g = (graph_adjacency tasks).1
  ∧ reverse_edges g = (graph_adjacency tasks).2
  ∧ _detect_cycles frames (edges g) = Returned (graph_cycles g)
  ∧ _find_critical_path fuel (nodes g) (edges g) = Some (critical_path g)
  ∧ blocked_tasks g = (classify (nodes g) (reverse_edges g)).1
  ∧ ready_tasks g = (classify (nodes g) (reverse_edges g)).2.
Proof.
  unfold from_tasks, graph_adjacency.
  destruct (build_edges (build_nodes tasks) tasks) as [e r].
  destruct (_detect_cycles frames e) as [cs| |] eqn:Hc; [|done..].
  destruct (_find_critical_path fuel (build_nodes tasks) e) as [cp|] eqn:Hp; [|done].
  destruct (classify (build_nodes tasks) r) as [b rd] eqn:Hcl.
  intros [= <-]. simpl. rewrite Hcl. by split_and!.
Qed.

(** ** Cycle detection *)

Lemma index_of_Some x l i : index_of x l = Some i → l !! i = Some x.
Proof.
  revert i. induction l as [|y l IH]; intros i; simpl; [done|].
  destruct (decide (x = y)) as [->|Hne]; [by intros [= <-]|].
  destruct (index_of x l) as [j|]; simpl; [|done].
  intros [= <-]. by apply IH.
Qed.

Section chains.
Context (edges : ODict.t (list string)).

Lemma chain_singleton x : chain edges ([] ++ [x]).
Proof. intros [|a [|b l1]] ? ? ? ?; simplify_eq. Qed.

Lemma chain_snoc l x y :
  chain edges (l ++ [x]) → y ∈ neighbors edges x → chain edges ((l ++ [x]) ++ [y]).
Proof.
  intros Hl Hy l1 a b l2 Heq.
  destruct l2 as [|z l2 _] using rev_ind.
  - change (l1 ++ [a; b]) with (l1 ++ [a] ++ [b]) in Heq.
    rewrite app_assoc in Heq.
    apply app_inj_tail in Heq as [Heq <-].
    by apply app_inj_tail in Heq as [_ <-].
  - change (l1 ++ a :: b :: l2 ++ [z]) with (l1 ++ (a :: b :: l2) ++ [z]) in Heq.
    rewrite app_assoc in Heq.
    apply app_inj_tail in Heq as [Heq _]. by apply (Hl l1 a b l2).
Qed.

Lemma chain_drop l i : chain edges l → chain edges (drop i l).
Proof.
  intros Hl l1 a b l2 Heq. apply (Hl (take i l ++ l1) a b l2).
  by rewrite <- app_assoc, <- Heq, take_drop.
Qed.

(** The sequence that [dfs] appends is a loop. *)
Lemma recorded_cycle_is_loop path node i :
  chain edges (path ++ [node]) → index_of node path = Some i →
  is_loop edges (drop i path ++ [node]).
Proof.
  intros Hch Hi%index_of_Some. split.
  - exists node, (drop (S i) path). by rewrite (drop_S _ _ _ Hi).
  - assert (Hlen : i ≤ length path) by (apply lookup_lt_Some in Hi; lia).
    replace (drop i path ++ [node]) with (drop i (path ++ [node]));
      [by apply chain_drop|].
    rewrite drop_app. replace (i - length path) with 0 by lia. done.
Qed.

Lemma visit_neighbors_loops call node nbrs st b st' :
  (∀ n s b s', n ∈ nbrs → loops_only edges s → call n s = Returned (b, s') → loops_only edges s') →
  loops_only edges st → visit_neighbors call node nbrs st = Returned (b, st') → loops_only edges st'.
Proof.
  revert st. induction nbrs as [|n rest IH]; intros st Hcall Hst; simpl.
  - case_decide; [|done]. by intros [= <- <-].
  - destruct (call n st) as [[[] s]| |] eqn:Hn; [| |done..].
    + intros [= <- <-]. apply (Hcall n st true s); [by left | done | done].
    + apply IH.
      * intros n' s0 b0 s0' Hn'. apply Hcall. by right.
      * apply (Hcall n st false s); [by left | done | done].
Qed.

Lemma dfs_loops frames node path st b st' :
  chain edges (path ++ [node]) → loops_only edges st →
  dfs frames edges node path st = Returned (b, st') → loops_only edges st'.
Proof.
  revert node path st b st'.
  induction frames as [|frames IH]; intros node path st b st' Hch Hst; simpl; [done|].
  case_decide.
  - destruct (index_of node path) as [i|] eqn:Hi; [|done].
    intros [= <- <-]. unfold loops_only. simpl.
    apply Forall_app. split; [done|].
    apply Forall_singleton. by apply recorded_cycle_is_loop.
  - case_decide; [by intros [= <- <-]|].
    apply visit_neighbors_loops; [|done].
    intros n s b0 s0 Hn Hs. apply IH; [|done]. by apply chain_snoc.
Qed.

Lemma dfs_roots_loops frames roots st st' :
  loops_only edges st → dfs_roots frames edges roots st = Returned st' → loops_only edges st'.
Proof.
  revert st. induction roots as [|node roots IH]; intros st Hst; simpl.
  - by intros [= <-].
  - case_decide; [by apply IH|].
    destruct (dfs frames edges node [] st) as [[b s]| |] eqn:Hd; [|done..].
    apply IH. eapply dfs_loops; [apply chain_singleton | exact Hst | exact Hd].
Qed.

End chains.

(** C9.  Every cycle that the detection returns starts and ends with the
    same id, and each id of it but the last has the next one in its
    forward adjacency list. *)
Theorem reported_cycles_are_loops (frames : nat) (edges : ODict.t (list string))
    (cs : list (list string)) :
  _detect_cycles frames edges = Returned cs →
  ∀ c, c ∈ cs →
    (∃ a mid, c = a :: mid ++ [a])
    ∧ ∀ l1 x y l2, c = l1 ++ x :: y :: l2 → y ∈ neighbors edges x.
Proof.
  unfold _detect_cycles.
  destruct (dfs_roots _ edges _ _) as [st| |] eqn:Hr; [|done..].
  intros [= <-] c Hc.
  assert (Hl : loops_only edges st).
  { eapply dfs_roots_loops; [|exact Hr]. apply Forall_nil_2. }
  unfold loops_only in Hl. rewrite Forall_forall in Hl. exact (Hl c Hc).
Qed.

Lemma reported_cycles_witness :
  (∃ a mid, ["#2"; "#1"; "#2"] = a :: mid ++ [a])
  ∧ ∀ l1 x y l2, ["#2"; "#1"; "#2"] = l1 ++ x :: y :: l2 →
      y ∈ neighbors (graph_adjacency two_cycle).1 x.
Proof.
  apply (reported_cycles_are_loops 3 (graph_adjacency two_cycle).1 [["#2"; "#1"; "#2"]]);
    [vm_compute; reflexivity | left].
Defined.

(** ** The frames that the depth-first search needs *)

Lemma get_elem_of_values {V} (d : ODict.t V) k v :
  ODict.get d k = Some v → v ∈ ODict.values d.
Proof.
  unfold ODict.values. induction d as [|[k' v'] d IH]; csimpl; [done|].
  case_decide; [intros [= ->]; by left | right; by apply IH].
Qed.

Lemma neighbors_in_universe edges node x :
  x ∈ neighbors edges node → x ∈ universe_set edges.
Proof.
  unfold neighbors, ODict.get_or, universe_set, universe. intros Hx.
  apply elem_of_list_to_set, elem_of_app. right.
  destruct (ODict.get edges node) as [l|] eqn:Hl; simpl in Hx;
    [|by apply elem_of_nil in Hx].
  apply list_elem_of_join. exists l. split; [done|]. by eapply get_elem_of_values.
Qed.

Lemma size_list_to_set_le (l : list string) :
  size (list_to_set l : gset string) ≤ length l.
Proof.
  induction l as [|x l IH].
  - rewrite list_to_set_nil, size_empty. simpl. lia.
  - rewrite list_to_set_cons, size_union_alt, size_singleton. simpl.
    assert (size (list_to_set l ∖ {[x]} : gset string) ≤ size (list_to_set l : gset string))
      by (apply subseteq_size; set_solver).
    lia.
Qed.

Section dfs_frames.
Context (edges : ODict.t (list string)).
Let U : gset string := universe_set edges.

Lemma visit_neighbors_sound call node nbrs st (seen : gset string) :
  (∀ n s, n ∈ nbrs → seen ⊆ visited s → sound_call (call n s) s) →
  seen ⊆ visited st →
  sound_call (visit_neighbors call node nbrs st) st.
Proof.
  revert st. induction nbrs as [|n rest IH]; intros st Hcall Hst; simpl.
  - split; [by case_decide|]. case_decide; [|done]. by intros b st' [= <- <-].
  - destruct (Hcall n st) as [Hfuel Hvis]; [by left | done|].
    destruct (call n st) as [[[] s]| |] eqn:Hn; [| |done..].
    + split; [done|]. intros b st' [= <- <-]. by apply (Hvis true).
    + specialize (Hvis false s eq_refl).
      destruct (IH s) as [Hfuel' Hvis'].
      * intros n' s0 Hn' Hs0. apply Hcall; [by right | done].
      * set_solver.
      * split; [done|]. intros b st' Hret. specialize (Hvis' b st' Hret). set_solver.
Qed.

Lemma dfs_sound frames node path st :
  node ∈ U → size (U ∖ visited st) < frames →
  sound_call (dfs frames edges node path st) st.
Proof.
  revert node path st.
  induction frames as [|frames IH]; intros node path st Hnode Hsize; [lia|].
  simpl. case_decide.
  - destruct (index_of node path); split; try done. by intros b st' [= <- <-].
  - case_decide; [split; [done|]; by intros b st' [= <- <-]|].
    destruct (visit_neighbors_sound
                (fun n => dfs frames edges n (path ++ [node])) node
                (neighbors edges node)
                (mkDfs ({[node]} ∪ visited st) ({[node]} ∪ rec_stack st) (cycles st))
                ({[node]} ∪ visited st)) as [Hframes Hvis].
    + intros n s Hn Hs. apply IH; [by eapply neighbors_in_universe|].
      assert (U ∖ visited s ⊂ U ∖ visited st) as Hsub%subset_size; [|lia].
      split; [set_solver|]. intros Hsup. assert (node ∈ U ∖ visited s); set_solver.
    + done.
    + split; [done|]. intros b st' Hret. specialize (Hvis b st' Hret).
      simpl in Hvis. set_solver.
Qed.

Lemma dfs_roots_enough_frames frames roots st :
  (∀ n, n ∈ roots → n ∈ U) → size U < frames →
  dfs_roots frames edges roots st ≠ Raised RecursionError.
Proof.
  intros Hroots Hframes. revert st.
  induction roots as [|node roots IH]; intros st; simpl; [done|].
  assert (Hr : ∀ n, n ∈ roots → n ∈ U) by (intros n Hn; apply Hroots; by right).
  case_decide; [by apply IH|].
  destruct (dfs_sound frames node [] st) as [Hf _].
  - apply Hroots. by left.
  - assert (size (U ∖ visited st) ≤ size U) by (apply subseteq_size; set_solver). lia.
  - destruct (dfs frames edges node [] st) as [[b s]| |]; [by apply IH | congruence | done].
Qed.

End dfs_frames.

(** A call of [dfs] that goes past the two tests marks a node that was
    not visited, so the recursion is never deeper than the number of ids:
    with more frames than ids the detection raises no [RecursionError]. *)
Lemma detect_cycles_total frames edges :
  size (universe_set edges) < frames →
  _detect_cycles frames edges ≠ Raised RecursionError.
Proof.
  intros Hframes. unfold _detect_cycles.
  pose proof (dfs_roots_enough_frames edges frames (ODict.keys edges)
                (mkDfs ∅ ∅ [])) as H.
  destruct (dfs_roots _ _ _ _) as [st|e|]; [done | | done].
  intros [= ->]. destruct H; [| |done].
  - intros n Hn. apply elem_of_list_to_set, elem_of_app. by left.
  - done.
Qed.

(** The search is a structural recursion on the frames: it always gives
    an outcome. *)
Lemma visit_neighbors_outcome call node nbrs st :
  (∀ n s, call n s ≠ OutOfFuel) → visit_neighbors call node nbrs st ≠ OutOfFuel.
Proof.
  intros Hcall. revert st. induction nbrs as [|n rest IH]; intros st; simpl.
  - by case_decide.
  - specialize (Hcall n st). destruct (call n st) as [[[] s]| |]; [done | apply IH | done | done].
Qed.

Lemma dfs_outcome frames edges node path st : dfs frames edges node path st ≠ OutOfFuel.
Proof.
  revert node path st. induction frames as [|frames IH]; intros node path st; simpl; [done|].
  case_decide; [by destruct (index_of node path)|].
  case_decide; [done|]. apply visit_neighbors_outcome. intros n s. apply IH.
Qed.

Lemma dfs_roots_outcome frames edges roots st : dfs_roots frames edges roots st ≠ OutOfFuel.
Proof.
  revert st. induction roots as [|node roots IH]; intros st; simpl; [done|].
  case_decide; [apply IH|].
  pose proof (dfs_outcome frames edges node [] st) as Hd.
  destruct (dfs frames edges node [] st) as [[b s]| |]; [apply IH | done | done].
Qed.

Lemma detect_cycles_returns_or_raises frames edges : _detect_cycles frames edges ≠ OutOfFuel.
Proof.
  unfold _detect_cycles. pose proof (dfs_roots_outcome frames edges (ODict.keys edges) (mkDfs ∅ ∅ [])).
  by destruct (dfs_roots _ _ _ _).
Qed.

(** ** More frames change no outcome but [RecursionError] *)

Lemma visit_neighbors_more_frames call call' node nbrs st r :
  (∀ n s r, call n s = r → r ≠ Raised RecursionError → call' n s = r) →
  visit_neighbors call node nbrs st = r → r ≠ Raised RecursionError →
  visit_neighbors call' node nbrs st = r.
Proof.
  intros Hcall. revert st. induction nbrs as [|n rest IH]; intros st; simpl; [done|].
  destruct (call n st) as [[[] s]|e|] eqn:Hn.
  - intros <- _. by rewrite (Hcall n st _ Hn).
  - intros Hr Hne. rewrite (Hcall n st _ Hn) by done. by apply IH.
  - intros <- Hne. by rewrite (Hcall n st _ Hn).
  - intros <- _. by rewrite (Hcall n st _ Hn).
Qed.

Lemma dfs_more_frames frames more edges node path st r :
  dfs frames edges node path st = r → r ≠ Raised RecursionError →
  dfs (frames + more) edges node path st = r.
Proof.
  revert node path st r.
  induction frames as [|frames IH]; intros node path st r; simpl; [by intros <-|].
  case_decide; [done|]. case_decide; [done|].
  apply visit_neighbors_more_frames. intros n s r'. apply IH.
Qed.

Lemma dfs_roots_more_frames frames more edges roots st r :
  dfs_roots frames edges roots st = r → r ≠ Raised RecursionError →
  dfs_roots (frames + more) edges roots st = r.
Proof.
  revert st. induction roots as [|node roots IH]; intros st; simpl; [done|].
  case_decide; [apply IH|].
  destruct (dfs frames edges node [] st) as [[b s]|e|] eqn:Hd.
  - intros Hr Hne. rewrite (dfs_more_frames _ more _ _ _ _ _ Hd) by done. by apply IH.
  - intros <- Hne. rewrite (dfs_more_frames _ more _ _ _ _ _ Hd); [done | congruence].
  - intros <- _. by rewrite (dfs_more_frames _ more _ _ _ _ _ Hd).
Qed.

Lemma detect_cycles_more_frames frames more edges r :
  _detect_cycles frames edges = r → r ≠ Raised RecursionError →
  _detect_cycles (frames + more) edges = r.
Proof.
  unfold _detect_cycles.
  destruct (dfs_roots frames edges _ _) as [st|e|] eqn:Hd; intros <- Hne.
  - by rewrite (dfs_roots_more_frames _ more _ _ _ _ Hd).
  - rewrite (dfs_roots_more_frames _ more _ _ _ _ Hd); [done|]. congruence.
  - by rewrite (dfs_roots_more_frames _ more _ _ _ _ Hd).
Qed.

(** ** [rec_stack.remove] never raises *)

Lemma visit_neighbors_rec_stack call node nbrs st :
  (∀ n s, call n s ≠ Raised KeyError
          ∧ ∀ s', call n s = Returned (false, s') → rec_stack s' = rec_stack s) →
  node ∈ rec_stack st →
  visit_neighbors call node nbrs st ≠ Raised KeyError
  ∧ ∀ st', visit_neighbors call node nbrs st = Returned (false, st') →
           rec_stack st' = rec_stack st ∖ {[node]}.
Proof.
  intros Hcall. revert st. induction nbrs as [|n rest IH]; intros st Hst; simpl.
  - rewrite decide_True by done. split; [done|]. by intros st' [= <-].
  - destruct (Hcall n st) as [Hk Hfalse].
    destruct (call n st) as [[[] s]| |] eqn:Hn; [done | | by split | done].
    specialize (Hfalse s eq_refl). rewrite <- Hfalse. apply IH. by rewrite Hfalse.
Qed.

(** A call of [dfs] that returns [False] leaves [rec_stack] as it found
    it, and no call raises [KeyError]. *)
Lemma dfs_rec_stack frames edges node path st :
  dfs frames edges node path st ≠ Raised KeyError
  ∧ ∀ st', dfs frames edges node path st = Returned (false, st') →
           rec_stack st' = rec_stack st.
Proof.
  revert node path st. induction frames as [|frames IH]; intros node path st; simpl; [done|].
  case_decide as Hrec.
  - by destruct (index_of node path).
  - case_decide; [split; [done|]; by intros st' [= <-]|].
    destruct (visit_neighbors_rec_stack
                (fun n => dfs frames edges n (path ++ [node])) node (neighbors edges node)
                (mkDfs ({[node]} ∪ visited st) ({[node]} ∪ rec_stack st) (cycles st)))
      as [Hk Hfalse]; [intros n s; apply IH | set_solver |].
    split; [done|]. intros st' Hst'. rewrite (Hfalse st' Hst'). simpl. set_solver.
Qed.

(** The cycle detection returns its cycles or raises [ValueError] or
    [RecursionError]. *)
Lemma detect_cycles_outcome frames edges :
  (∃ cs, _detect_cycles frames edges = Returned cs)
  ∨ _detect_cycles frames edges = Raised ValueError
  ∨ _detect_cycles frames edges = Raised RecursionError.
Proof.
  pose proof (detect_cycles_returns_or_raises frames edges) as Hout.
  unfold _detect_cycles in *.
  assert (Hkey : ∀ roots st, dfs_roots frames edges roots st ≠ Raised KeyError).
  { induction roots as [|node roots IH]; intros st; cbn [dfs_roots]; [done|].
    case_decide; [apply IH|].
    destruct (dfs_rec_stack frames edges node [] st) as [Hk _].
    destruct (dfs frames edges node [] st) as [[b s]| |]; [apply IH | congruence | done]. }
  specialize (Hkey (ODict.keys edges) (mkDfs ∅ ∅ [])).
  destruct (dfs_roots _ _ _ _) as [st|[]|];
    [left; eauto | right; by left | done | right; by right | done].
Qed.

(** ** An input on which the analysis raises *)

Example late_root_edges :
  (graph_adjacency late_root).1 = [("#2", ["#1"]); ("#3", ["#1"]); ("#1", ["#2"])].
Proof. vm_compute. reflexivity. Qed.

(** The search from ["#2"] records the cycle and returns through the
    early [return True], which leaves ["#2"] and ["#1"] in [rec_stack]. *)
Example late_root_first_search :
  dfs 4 (graph_adjacency late_root).1 "#2" [] (mkDfs ∅ ∅ [])
  = Returned (true, mkDfs {["#1"; "#2"]} {["#1"; "#2"]} [["#2"; "#1"; "#2"]]).
Proof. vm_compute. reflexivity. Qed.

(** The search from ["#3"] then meets ["#1"], which is in [rec_stack] but
    not on the path [["#3"]]. *)
Example late_root_second_search :
  dfs 4 (graph_adjacency late_root).1 "#3" []
    (mkDfs {["#1"; "#2"]} {["#1"; "#2"]} [["#2"; "#1"; "#2"]])
  = Raised ValueError.
Proof. vm_compute. reflexivity. Qed.

(** An exception of the cycle detection leaves [from_tasks]. *)
Lemma from_tasks_Raised frames fuel tasks e :
  _detect_cycles frames (graph_adjacency tasks).1 = Raised e →
  from_tasks frames fuel tasks = Raised e.
Proof.
  unfold from_tasks, graph_adjacency.
  destruct (build_edges (build_nodes tasks) tasks) as [ed r]. simpl. by intros ->.
Qed.

(** C1, failing input.  On [late_root] the analysis raises, whatever the
    room on the stack and whatever the fuel: with three frames or more
    the cycle detection raises [ValueError] at [path.index(node)], and so
    does [from_tasks]; with fewer frames [from_tasks] raises as well. *)
Theorem from_tasks_raises :
  (∀ frames, _detect_cycles (3 + frames) (graph_adjacency late_root).1 = Raised ValueError)
  ∧ (∀ frames fuel, from_tasks (3 + frames) fuel late_root = Raised ValueError)
  ∧ (∀ frames fuel, ∃ e, from_tasks frames fuel late_root = Raised e).
Proof.
  assert (H3 : ∀ frames,
    _detect_cycles (3 + frames) (graph_adjacency late_root).1 = Raised ValueError).
  { intros frames. apply detect_cycles_more_frames; [|done]. vm_compute. reflexivity. }
  split_and!; [done | |].
  - intros frames fuel. apply from_tasks_Raised, H3.
  - intros [|[|[|frames]]] fuel.
    + exists RecursionError. apply from_tasks_Raised. vm_compute. reflexivity.
    + exists RecursionError. apply from_tasks_Raised. vm_compute. reflexivity.
    + exists RecursionError. apply from_tasks_Raised. vm_compute. reflexivity.
    + exists ValueError. apply from_tasks_Raised, (H3 frames).
Qed.

(** ** The worklist phase *)

Lemma indeg_insert d x v n :
  indeg (<[x := v]> d) n = if decide (x = n) then v else indeg d n.
Proof.
  unfold indeg. case_decide as Hx.
  - subst. by rewrite lookup_insert_eq.
  - by rewrite lookup_insert_ne.
Qed.

Lemma count_of_elem_of x l : x ∈ l → 0 < count_of x l.
Proof.
  induction l as [|y l IH]; [by intros ?%elem_of_nil|].
  simpl. case_decide; [lia|]. intros [?|?]%elem_of_cons; [done|]. apply IH in H0. lia.
Qed.

Lemma count_of_pos_elem_of x l : 0 < count_of x l → x ∈ l.
Proof.
  induction l as [|y l IH]; simpl; [lia|].
  case_decide; [subst; by left|]. intros ?. right. apply IH. lia.
Qed.

Lemma on_cycle_pred edges n :
  on_cycle edges n → ∃ p, n ∈ neighbors edges p ∧ on_cycle edges p.
Proof.
  unfold on_cycle. set (R := fun a b : string => b ∈ neighbors edges a).
  assert (Hlast : ∀ x y, tc R x y → ∃ p, rtc R x p ∧ R p y).
  { intros x y Hxy. induction Hxy as [x y Hxy | x y z Hxy _ (p & Hyp & Hpz)].
    - exists x. split; [apply rtc_refl | done].
    - exists p. split; [by eapply rtc_l | done]. }
  intros Hn. destruct (Hlast n n Hn) as (p & Hnp & Hpn).
  exists p. split; [done|]. eapply tc_rtc_r; [by apply tc_once | done].
Qed.

Lemma incoming_cons u l es gone n :
  incoming ((u, l) :: es) gone n
  = (if decide (u ∈ gone) then 0 else count_of n l) + incoming es gone n.
Proof. reflexivity. Qed.

Lemma incoming_mono (edges : ODict.t (list string)) gone gone' n :
  (∀ u, u ∈ gone → u ∈ gone') → incoming edges gone' n ≤ incoming edges gone n.
Proof.
  intros Hsub. induction edges as [|[u l] es IH]; [done|].
  rewrite !incoming_cons.
  destruct (decide (u ∈ gone)) as [Hu|Hu], (decide (u ∈ gone')) as [Hu'|Hu']; try lia.
  destruct Hu'. by apply Hsub.
Qed.

(** An edge from a source that is not gone is counted. *)
Lemma incoming_pred (edges : ODict.t (list string)) gone p x :
  x ∈ neighbors edges p → p ∉ gone → 0 < incoming edges gone x.
Proof.
  unfold neighbors, ODict.get_or. intros Hx Hp.
  induction edges as [|[u l] es IH]; [by apply elem_of_nil in Hx|].
  rewrite incoming_cons. cbn [ODict.get] in Hx.
  destruct (decide (p = u)) as [->|Hne].
  - simpl in Hx. rewrite decide_False by done. apply count_of_elem_of in Hx. lia.
  - apply IH in Hx. lia.
Qed.

Lemma incoming_zero_pred (edges : ODict.t (list string)) gone p x :
  incoming edges gone x = 0 → x ∈ neighbors edges p → p ∈ gone.
Proof.
  intros Hz Hx. destruct (decide (p ∈ gone)) as [|Hp]; [done|].
  pose proof (incoming_pred edges gone p x Hx Hp). lia.
Qed.

(** Popping [u] takes its own edges out of the count. *)
Lemma incoming_pop (edges : ODict.t (list string)) gone u n :
  NoDup (ODict.keys edges) → u ∉ gone →
  incoming edges gone n
  = incoming edges (gone ++ [u]) n + count_of n (neighbors edges u).
Proof.
  unfold neighbors, ODict.get_or, ODict.keys. intros Hnd Hu.
  induction edges as [|[k l] es IH]; [done|].
  rewrite fmap_cons in Hnd. apply NoDup_cons in Hnd as [Hk Hnd]. specialize (IH Hnd).
  rewrite !incoming_cons. cbn [ODict.get].
  destruct (decide (u = k)) as [->|Hne].
  - rewrite (decide_False (P := k ∈ gone)) by done.
    rewrite (decide_True (P := k ∈ gone ++ [k])) by (apply elem_of_app; right; by left).
    assert (ODict.get es k = None) as Hnone.
    { destruct (ODict.get es k) eqn:Hg; [|done].
      destruct Hk. apply (elem_of_keys es k). eauto. }
    rewrite Hnone in IH. simpl in *. lia.
  - destruct (decide (k ∈ gone)) as [Hin|Hnin].
    + rewrite decide_True by (apply elem_of_app; by left). lia.
    + rewrite decide_False; [lia|].
      intros [?|?%list_elem_of_singleton]%elem_of_app; done.
Qed.

(** [count_in_degree] counts every edge. *)
Lemma indeg_count_in_degree edges n :
  indeg (count_in_degree edges) n = Z.of_nat (incoming edges [] n).
Proof.
  unfold count_in_degree.
  assert (Hinner : ∀ l d,
    indeg (fold_left (fun d nb => <[nb := (indeg d nb + 1)%Z]> d) l d) n
    = (indeg d n + Z.of_nat (count_of n l))%Z).
  { induction l as [|x l IH]; intros d; simpl; [lia|].
    rewrite IH, indeg_insert. repeat case_decide; subst; try done; lia. }
  assert (Houter : ∀ es d,
    indeg (fold_left (fun d entry =>
             fold_left (fun d nb => <[nb := (indeg d nb + 1)%Z]> d) entry.2 d) es d) n
    = (indeg d n + Z.of_nat (incoming es [] n))%Z).
  { induction es as [|[u l] es IH]; intros d; [simpl; lia|].
    rewrite incoming_cons. cbn [fold_left]. rewrite IH, Hinner.
    rewrite decide_False by (by intros ?%elem_of_nil). simpl. lia. }
  rewrite Houter. unfold indeg. rewrite lookup_empty. simpl. lia.
Qed.

Lemma count_of_cons n x l :
  count_of n (x :: l) = (if decide (n = x) then 1 else 0) + count_of n l.
Proof. reflexivity. Qed.

Lemma neighbors_in_values edges node x :
  x ∈ neighbors edges node → x ∈ mjoin (ODict.values edges).
Proof.
  unfold neighbors, ODict.get_or. intros Hx.
  destruct (ODict.get edges node) as [l|] eqn:Hl; simpl in Hx;
    [|by apply elem_of_nil in Hx].
  apply list_elem_of_join. exists l. split; [done|]. by eapply get_elem_of_values.
Qed.

Section worklist.
Context (nodes : ODict.t Task) (edges : ODict.t (list string)).
Context (Hnodes : NoDup (ODict.keys nodes)) (Hedges : NoDup (ODict.keys edges)).

Lemma kahn_init_inv : kahn_inv nodes edges [] (kahn_init nodes edges).
Proof.
  unfold kahn_init.
  assert (Hzero : ∀ q,
    q ∈ filter (fun n => indeg (count_in_degree edges) n = 0%Z) (ODict.keys nodes) →
    incoming edges [] q = 0).
  { intros q [Hq _]%list_elem_of_filter. rewrite indeg_count_in_degree in Hq. lia. }
  constructor; simpl; rewrite ?app_nil_r.
  - by apply NoDup_filter.
  - intros n. rewrite indeg_count_in_degree. f_equal. lia.
  - intros q Hq. rewrite (Hzero q Hq). lia.
  - intros q [_ Hq]%list_elem_of_filter. apply elem_of_app. by left.
  - by intros x ?%elem_of_nil.
  - by intros n ?%elem_of_nil.
  - intros q Hq (p & Hp & _)%on_cycle_pred.
    apply (incoming_zero_pred edges [] p q (Hzero q Hq)) in Hp.
    by apply elem_of_nil in Hp.
Qed.

Lemma relax_preserves current cd x rest s :
  kahn_inv nodes edges (x :: rest) s →
  kahn_inv nodes edges rest (relax nodes current cd s x)
  ∧ popped (relax nodes current cd s x) = popped s.
Proof.
  intros [Hnd Hdeg Hz Hu Hr Hlp Hac]. split; [|done].
  assert (Hd : (indeg (in_degree s) x - 1)%Z
               = Z.of_nat (incoming edges (popped s) x + count_of x rest)).
  { rewrite Hdeg, count_of_cons, decide_True by done. lia. }
  assert (Hfresh : x ∉ queue s ++ popped s).
  { intros Hin. specialize (Hz x Hin).
    rewrite count_of_cons, decide_True in Hz by done. lia. }
  destruct (Hr x) as (px & Hpx & Hxpx); [by left|].
  assert (Hold : ∀ q, q ∈ queue s ++ popped s →
                      incoming edges (popped s) q + count_of q rest = 0).
  { intros q Hq. specialize (Hz q Hq). rewrite count_of_cons in Hz. lia. }
  assert (Hpush : ∀ q, q ∈ (queue s ++ [x]) ++ popped s ↔ q = x ∨ q ∈ queue s ++ popped s).
  { intros q. rewrite !elem_of_app, list_elem_of_singleton. tauto. }
  unfold relax.
  destruct (Z.eqb_spec (indeg (in_degree s) x - 1) 0) as [Hzero|Hpos];
    constructor; simpl.
  - rewrite <- app_assoc. simpl. apply NoDup_app.
    apply NoDup_app in Hnd as (Hq & Hdisj & Hp).
    split_and!; [done | | ].
    + intros q Hq' [->|Hq'']%elem_of_cons.
      * apply Hfresh, elem_of_app. by left.
      * by apply (Hdisj q).
    + apply NoDup_cons. split; [|done].
      intros Hin. apply Hfresh, elem_of_app. by right.
  - intros n. rewrite indeg_insert. case_decide as Hn; [by subst|].
    rewrite Hdeg, count_of_cons, decide_False by done. f_equal.
  - intros q [->|Hq]%Hpush; [lia | by apply Hold].
  - intros q [->|Hq]%Hpush; [|by apply Hu].
    apply elem_of_app. right. by eapply neighbors_in_values.
  - intros y Hy. apply Hr. by right.
  - intros n Hn.
    destruct (_ <? _)%float; [|by apply Hlp].
    apply elem_of_keys_set in Hn as [->|Hn]; [eauto | by apply Hlp].
  - intros q [->|Hq]%Hpush; [|by apply Hac].
    intros (p & Hp & Hcyc)%on_cycle_pred.
    apply (incoming_zero_pred edges (popped s)) in Hp; [|lia].
    apply (Hac p); [|done]. apply elem_of_app. by right.
  - done.
  - intros n. rewrite indeg_insert. case_decide as Hn; [by subst|].
    rewrite Hdeg, count_of_cons, decide_False by done. f_equal.
  - done.
  - done.
  - intros y Hy. apply Hr. by right.
  - intros n Hn.
    destruct (_ <? _)%float; [|by apply Hlp].
    apply elem_of_keys_set in Hn as [->|Hn]; [eauto | by apply Hlp].
  - done.
Qed.

Lemma relax_all current cd rest s :
  kahn_inv nodes edges rest s →
  kahn_inv nodes edges [] (fold_left (relax nodes current cd) rest s)
  ∧ popped (fold_left (relax nodes current cd) rest s) = popped s.
Proof.
  revert s. induction rest as [|x rest IH]; intros s Hs; simpl; [done|].
  destruct (relax_preserves current cd x rest s Hs) as [Hs' Hp].
  destruct (IH _ Hs') as [Hs'' Hp']. split; [done | congruence].
Qed.

Lemma pop_inv s current rest :
  kahn_inv nodes edges [] s → queue s = current :: rest →
  kahn_inv nodes edges (neighbors edges current)
    (mkKahn rest (in_degree s) (longest_path s) (popped s ++ [current])).
Proof.
  intros [Hnd Hdeg Hz Hu Hr Hlp Hac] Hq. rewrite Hq in *.
  assert (Hsame : ∀ q, q ∈ rest ++ popped s ++ [current] ↔ q ∈ (current :: rest) ++ popped s).
  { intros q. rewrite !elem_of_app, !elem_of_cons, elem_of_nil. tauto. }
  assert (Hcur : current ∉ popped s).
  { simpl in Hnd. apply NoDup_cons in Hnd as [Hc _].
    intros Hin. apply Hc, elem_of_app. by right. }
  constructor; simpl.
  - simpl in Hnd. apply NoDup_cons in Hnd as [Hc Hnd].
    rewrite app_assoc. apply NoDup_app. split_and!; [done | | apply NoDup_singleton].
    by intros q Hq' ->%list_elem_of_singleton.
  - intros n. rewrite Hdeg, (incoming_pop edges (popped s) current n) by done.
    f_equal. simpl. lia.
  - intros q Hq'%Hsame. specialize (Hz q Hq'). simpl in Hz.
    rewrite (incoming_pop edges (popped s) current q) in Hz by done. lia.
  - intros q Hq'%Hsame. by apply Hu.
  - intros x Hx. exists current. split; [|done]. apply elem_of_app. right. by left.
  - intros n (p & Hp & Hn)%Hlp. exists p. split; [|done]. apply elem_of_app. by left.
  - intros q Hq'%Hsame. by apply Hac.
Qed.

Lemma kahn_loop_total fuel s :
  kahn_inv nodes edges [] s →
  length (kahn_universe nodes edges) ≤ fuel + length (popped s) →
  ∃ s', kahn_loop fuel nodes edges s = Some s'
        ∧ queue s' = [] ∧ kahn_inv nodes edges [] s'.
Proof.
  revert s. induction fuel as [|fuel IH]; intros s Hs Hfuel.
  - destruct (queue s) as [|current rest] eqn:Hq.
    + exists s. simpl. by rewrite Hq.
    + exfalso.
      assert (Hle : length (queue s ++ popped s) ≤ length (kahn_universe nodes edges)).
      { apply submseteq_length, NoDup_submseteq; [apply Hs | apply Hs]. }
      rewrite length_app, Hq in Hle. simpl in *. lia.
  - simpl. destruct (queue s) as [|current rest] eqn:Hq.
    + exists s. by rewrite Hq.
    + pose proof (pop_inv s current rest Hs Hq) as Hpop.
      destruct (relax_all current (ODict.get_or (longest_path s) current 0%float)
                  _ _ Hpop) as [Hs' Hp].
      apply IH; [done|]. rewrite Hp. simpl. rewrite length_app. simpl. lia.
Qed.

(** The worklist phase returns: its fuel is enough. *)
Lemma kahn_total :
  ∃ s, kahn nodes edges = Some s ∧ queue s = [] ∧ kahn_inv nodes edges [] s.
Proof.
  unfold kahn. apply kahn_loop_total; [apply kahn_init_inv|].
  unfold kahn_fuel, kahn_universe. rewrite length_app. simpl. lia.
Qed.

End worklist.

(** ** Cyclic nodes and the distance map *)

Lemma NoDup_keys_append_at k x d :
  NoDup (ODict.keys d) → NoDup (ODict.keys (append_at k x d)).
Proof. apply NoDup_keys_set. Qed.

Lemma NoDup_graph_adjacency tasks :
  NoDup (ODict.keys (graph_adjacency tasks).1)
  ∧ NoDup (ODict.keys (graph_adjacency tasks).2).
Proof.
  unfold graph_adjacency, build_edges.
  apply (fold_left_inv
           (fun a : adjacency => NoDup (ODict.keys a.1) ∧ NoDup (ODict.keys a.2))).
  - split; constructor.
  - assert (Hedge : ∀ p t (a : adjacency),
      NoDup (ODict.keys a.1) ∧ NoDup (ODict.keys a.2) →
      NoDup (ODict.keys (add_edge p t a).1) ∧ NoDup (ODict.keys (add_edge p t a).2)).
    { intros p t a [H1 H2]. split; simpl; by apply NoDup_keys_append_at. }
    intros a t _ Ha. unfold add_task. apply fold_left_inv; [done|].
    intros a' dep _ Ha'. unfold add_dep.
    destruct (PyStr.contains "task" _).
    + apply fold_left_inv; [done|]. intros a'' ref _ Ha''. unfold add_ref.
      destruct (ODict.mem _ _); [by apply Hedge | done].
    + unfold add_anchor.
      destruct (any_keyword testing_keywords _);
        [destruct (_ && _); [by apply Hedge | done]|].
      destruct (any_keyword aar_keywords _); [|done].
      destruct (_ && _); [by apply Hedge | done].
Qed.

(** In [fed_cycle] the node ["#2"] is on the cycle of ["#2"] and ["#3"]
    and gets the distance 5 when ["#1"] is relaxed. *)
Lemma fed_cycle_has_distance : ¬ cyclic_nodes_have_no_distance.
Proof.
  intros H.
  destruct (kahn (build_nodes fed_cycle) (graph_adjacency fed_cycle).1) as [s|] eqn:Hk;
    [|by vm_compute in Hk].
  apply (H fed_cycle s "#2" Hk).
  - apply (tc_l _ _ "#3"); [|apply tc_once]; vm_compute; by left.
  - assert (longest_path <$> kahn (build_nodes fed_cycle) (graph_adjacency fed_cycle).1
            = Some [("#2", 5%float)]) as Hlp by (vm_compute; reflexivity).
    rewrite Hk in Hlp. injection Hlp as ->. by left.
Qed.

(** C3, amended.  The worklist phase returns with an empty queue.  A node
    on a cycle of the forward adjacency keeps a positive remaining
    in-degree and is never taken from the queue; it has a distance only
    if a node that was taken from the queue, which is on no cycle, has a
    forward edge to it. *)
Theorem cyclic_nodes_never_popped (tasks : list Task) :
  ∃ s, kahn (build_nodes tasks) (graph_adjacency tasks).1 = Some s
    ∧ queue s = []
    ∧ ∀ n, on_cycle (graph_adjacency tasks).1 n →
        (n ∉ popped s)
        ∧ (0 < indeg (in_degree s) n)%Z
        ∧ (n ∈ ODict.keys (longest_path s) →
           ∃ p, p ∈ popped s ∧ ¬ on_cycle (graph_adjacency tasks).1 p
                ∧ n ∈ neighbors (graph_adjacency tasks).1 p).
Proof.
  destruct (kahn_total (build_nodes tasks) (graph_adjacency tasks).1
              (NoDup_build_nodes tasks) (proj1 (NoDup_graph_adjacency tasks)))
    as (s & Hk & Hq & [Hnd Hdeg Hz Hu Hr Hlp Hac]).
  exists s. split_and!; [done | done|].
  intros n Hn. rewrite Hq in *. simpl in *. split_and!.
  - intros Hin. by apply (Hac n).
  - destruct (on_cycle_pred _ n Hn) as (p & Hp & Hcyc).
    assert (p ∉ popped s) as Hnp by (intros Hin; by apply (Hac p)).
    pose proof (incoming_pred _ (popped s) p n Hp Hnp). rewrite Hdeg. lia.
  - intros (p & Hp & Hnp)%Hlp. exists p. split_and!; [done | by apply Hac | done].
Qed.

(** ** An input on which the trace back does not end *)

Lemma trace_back_O nodes edges lp cp current d :
  trace_back 0 nodes edges lp cp current d = if (0 <? d)%float then None else Some cp.
Proof. reflexivity. Qed.

Lemma trace_back_S fuel nodes edges lp cp current d :
  trace_back (S fuel) nodes edges lp cp current d
  = if (0 <? d)%float then
      match List.find (is_pred nodes edges lp current d) (ODict.keys nodes) with
      | Some node =>
          trace_back fuel nodes edges lp (node :: cp) node (ODict.get_or lp node 0%float)
      | None => Some cp
      end
    else Some cp.
Proof. reflexivity. Qed.

Example zero_weight_graph :
  graph_adjacency zero_weight_cycle
  = ([("#3", ["#1"; "#2"]); ("#2", ["#1"]); ("#1", ["#2"])],
     [("#1", ["#3"; "#2"]); ("#2", ["#3"; "#1"])]).
Proof. vm_compute. reflexivity. Qed.

(** The cycle detection and the worklist phase return on this input. *)
Example zero_weight_cycles :
  _detect_cycles 4 zero_weight_edges = Returned [["#1"; "#2"; "#1"]].
Proof. vm_compute. reflexivity. Qed.

Example zero_weight_kahn :
  (fun s => (queue s, longest_path s, popped s))
    <$> kahn zero_weight_nodes zero_weight_edges
  = Some ([], zero_weight_distances, ["#3"]).
Proof. vm_compute. reflexivity. Qed.

(** From ["#1"] the trace back steps to ["#2"], from ["#2"] to ["#1"],
    and the distance stays 5. *)
Example zero_weight_step_1 :
  List.find (is_pred zero_weight_nodes zero_weight_edges zero_weight_distances "#1" 5%float)
    (ODict.keys zero_weight_nodes) = Some "#2"
  ∧ ODict.get_or zero_weight_distances "#2" 0%float = 5%float.
Proof. split; vm_compute; reflexivity. Qed.

Example zero_weight_step_2 :
  List.find (is_pred zero_weight_nodes zero_weight_edges zero_weight_distances "#2" 5%float)
    (ODict.keys zero_weight_nodes) = Some "#1"
  ∧ ODict.get_or zero_weight_distances "#1" 0%float = 5%float.
Proof. split; vm_compute; reflexivity. Qed.

Lemma zero_weight_trace_back fuel :
  ∀ cp,
    trace_back fuel zero_weight_nodes zero_weight_edges zero_weight_distances
      cp "#1" 5%float = None
    ∧ trace_back fuel zero_weight_nodes zero_weight_edges zero_weight_distances
        cp "#2" 5%float = None.
Proof.
  assert (Hpos : (0 <? 5)%float = true) by reflexivity.
  destruct zero_weight_step_1 as [H1 H1'], zero_weight_step_2 as [H2 H2'].
  induction fuel as [|fuel IH]; intros cp.
  - by rewrite !trace_back_O, Hpos.
  - rewrite !trace_back_S, Hpos, H1, H1', H2, H2'. split; apply IH.
Qed.

(** C2, failing input.  On [zero_weight_cycle] the cycle detection, given
    the four frames it needs, and the worklist phase return, and the trace
    back never ends: whatever the fuel, [_find_critical_path] and
    [from_tasks] use it up, and [from_tasks] returns no graph whatever
    the frames. *)
Theorem critical_path_diverges :
  ∀ frames fuel,
    _find_critical_path fuel zero_weight_nodes zero_weight_edges = None
    ∧ from_tasks (4 + frames) fuel zero_weight_cycle = OutOfFuel
    ∧ ∀ g, from_tasks frames fuel zero_weight_cycle ≠ Returned g.
Proof.
  intros frames fuel.
  assert (Hcp : _find_critical_path fuel zero_weight_nodes zero_weight_edges = None).
  { unfold _find_critical_path.
    pose proof zero_weight_kahn as Hk.
    destruct (kahn zero_weight_nodes zero_weight_edges) as [s|]; [|done].
    injection Hk as _ Hlp _. rewrite Hlp.
    change (max_item zero_weight_distances) with (Some ("#1", 5%float)).
    apply zero_weight_trace_back. }
  split_and!; [done | |].
  - unfold from_tasks.
    change (build_edges (build_nodes zero_weight_cycle) zero_weight_cycle)
      with (graph_adjacency zero_weight_cycle).
    pose proof (detect_cycles_more_frames 4 frames _ _ zero_weight_cycles) as Hc.
    pose proof Hcp as Hcp'.
    unfold zero_weight_edges, zero_weight_nodes in Hc, Hcp'.
    destruct (graph_adjacency zero_weight_cycle) as [e r]. cbn [fst] in Hc, Hcp'.
    by rewrite Hc, Hcp'.
  - intros g (Hn & He & _ & _ & Hp & _)%from_tasks_Returned.
    rewrite Hn, He in Hp. unfold zero_weight_nodes, zero_weight_edges in Hcp. congruence.
Qed.

(** ** The enhanced analysis writes to the tasks *)

Lemma markers_appended_refl m l : markers_appended m l l.
Proof. exists 0. simpl. by rewrite app_nil_r. Qed.

Lemma markers_appended_snoc m l : markers_appended m l (l ++ [m]).
Proof. by exists 1. Qed.

Lemma markers_appended_trans m l1 l2 l3 :
  markers_appended m l1 l2 → markers_appended m l2 l3 → markers_appended m l1 l3.
Proof.
  intros [k ->] [k' ->]. exists (k + k').
  by rewrite <- app_assoc, replicate_add.
Qed.

Lemma annotated_refl t : annotated t t.
Proof. unfold annotated. split_and!; try done; apply markers_appended_refl. Qed.

Lemma annotated_trans t1 t2 t3 : annotated t1 t2 → annotated t2 t3 → annotated t1 t3.
Proof.
  intros (? & ? & ? & ? & ? & ? & ?) (? & ? & ? & ? & ? & ? & ?).
  unfold annotated. split_and!; try congruence; by eapply markers_appended_trans.
Qed.

Lemma enhance_task_annotated g t : annotated t (enhance_task g t).
Proof.
  unfold enhance_task, when, annotated.
  repeat case_bool_decide; simpl; split_and!; try done;
    first [apply markers_appended_refl | apply markers_appended_snoc].
Qed.

Lemma enhance_task_blocks g t :
  blocks (enhance_task g t) = ODict.get_or (edges g) (task_key t) [].
Proof. unfold enhance_task, when. by repeat case_bool_decide. Qed.

Lemma annotated_task_key t t' : annotated t t' → task_key t' = task_key t.
Proof. intros (Hid & _). unfold task_key. by rewrite Hid. Qed.

Lemma enhance_steps g h tasks h0 :
  (∀ a, annotated (h a) (h0 a)) →
  (∀ a, annotated (h a) (fold_left (enhance_step g) tasks h0 a))
  ∧ (∀ a, a ∉ tasks → fold_left (enhance_step g) tasks h0 a = h0 a)
  ∧ (∀ a, a ∈ tasks ∨ blocks (h0 a) = ODict.get_or (edges g) (task_key (h a)) [] →
          blocks (fold_left (enhance_step g) tasks h0 a)
          = ODict.get_or (edges g) (task_key (h a)) []).
Proof.
  revert h0. induction tasks as [|b tasks IH]; intros h0 Hann; simpl.
  - split_and!; [done | done|]. intros a [[]%elem_of_nil|]; done.
  - assert (Hann' : ∀ a, annotated (h a) (enhance_step g h0 b a)).
    { intros a. unfold enhance_step, store. case_decide; [subst|done].
      eapply annotated_trans; [apply Hann | apply enhance_task_annotated]. }
    destruct (IH _ Hann') as (IH1 & IH2 & IH3). split_and!; [done | |].
    + intros a [Hne Hnin]%not_elem_of_cons. rewrite IH2 by done.
      unfold enhance_step, store. by rewrite decide_False.
    + intros a Ha. apply IH3.
      destruct (decide (a ∈ tasks)) as [|Hnin]; [by left | right].
      unfold enhance_step, store. case_decide as Hab.
      * subst. by rewrite enhance_task_blocks, (annotated_task_key (h b)).
      * destruct Ha as [[?|?]%elem_of_cons|?]; done.
Qed.

(** A pending task without prerequisites gets the marker of the ready
    tasks. *)
Lemma enhanced_task_changes : ¬ analysis_leaves_tasks_unchanged.
Proof.
  intros H.
  assert (Heq : lone_heap_after 0 = lone_heap 0).
  { apply (H 1 1 lone_heap [0] lone_heap_after [0] (mkSummary 1 0 0 1 0 0 [] ["#1"] []));
      [reflexivity | by left]. }
  discriminate Heq.
Qed.

(** C7, amended.  The enhanced analysis returns the list it was given.
    It leaves the objects outside the list as they are; of an object in
    the list it leaves the id, the status, the estimated hours and the
    dependency references as they are, sets [blocks] to the forward
    adjacency list of the task, and only appends markers to the three
    annotation lists. *)
Theorem enhance_frame frames fuel (h : heap) (tasks : list nat) h' out summary :
  enhance_task_analysis frames fuel h tasks = Returned (h', out, summary) →
  out = tasks
  ∧ (∀ a, a ∉ tasks → h' a = h a)
  ∧ (∀ a, annotated (h a) (h' a))
  ∧ ∃ g, from_tasks frames fuel (snapshot h tasks) = Returned g
         ∧ summary = get_analysis_summary g
         ∧ ∀ a, a ∈ tasks → blocks (h' a) = ODict.get_or (edges g) (task_key (h a)) [].
Proof.
  unfold enhance_task_analysis.
  destruct (from_tasks frames fuel (snapshot h tasks)) as [g| |] eqn:Hg; [|done..].
  intros [= <- <- <-].
  destruct (enhance_steps g h tasks h (fun a => annotated_refl (h a))) as (H1 & H2 & H3).
  split_and!; [done | done | done|].
  exists g. split_and!; [done | done|]. intros a Ha. apply H3. by left.
Qed.

Lemma enhance_frame_witness :
  [0] = [0]
  ∧ (∀ a, a ∉ [0] → lone_heap_after a = lone_heap a)
  ∧ (∀ a, annotated (lone_heap a) (lone_heap_after a))
  ∧ ∃ g, from_tasks 1 1 (snapshot lone_heap [0]) = Returned g
         ∧ mkSummary 1 0 0 1 0 0 [] ["#1"] [] = get_analysis_summary g
         ∧ ∀ a, a ∈ [0] →
             blocks (lone_heap_after a) = ODict.get_or (edges g) (task_key (lone_heap a)) [].
Proof.
  apply (enhance_frame 1 1 lone_heap [0] lone_heap_after [0]
           (mkSummary 1 0 0 1 0 0 [] ["#1"] [])).
  reflexivity.
Defined.

(** ** The builder reads four fields *)

Lemma fold_left_ext {A B} (f g : A → B → A) (l : list B) (a : A) :
  (∀ a b, f a b = g a b) → fold_left f l a = fold_left g l a.
Proof.
  intros Hfg. revert a. induction l as [|b l IH]; intros a; simpl; [done|].
  by rewrite Hfg, IH.
Qed.

Lemma fold_left_fmap {A B C} (f : A → C → A) (g : B → C) (l : list B) (a : A) :
  fold_left f (g <$> l) a = fold_left (fun a b => f a (g b)) l a.
Proof. revert a. induction l as [|b l IH]; intros a; csimpl; [done | apply IH]. Qed.

Lemma find_ext {A} (f g : A → bool) (l : list A) :
  (∀ x, f x = g x) → List.find f l = List.find g l.
Proof. intros Hfg. induction l as [|x l IH]; simpl; [done|]. by rewrite Hfg, IH. Qed.

Lemma forallb_ext {A} (f g : A → bool) (l : list A) :
  (∀ x, f x = g x) → forallb f l = forallb g l.
Proof. intros Hfg. induction l as [|x l IH]; simpl; [done|]. by rewrite Hfg, IH. Qed.

Section core.
Context (nodes : ODict.t Task).
Let nodes' : ODict.t Task := core_item <$> nodes.

Lemma get_core k : ODict.get nodes' k = core <$> ODict.get nodes k.
Proof.
  subst nodes'. induction nodes as [|[k0 t0] d IH]; csimpl; [done|].
  by case_decide.
Qed.

Lemma mem_core k : ODict.mem nodes' k = ODict.mem nodes k.
Proof. unfold ODict.mem. rewrite get_core. by destruct (ODict.get nodes k). Qed.

Lemma keys_core : ODict.keys nodes' = ODict.keys nodes.
Proof.
  subst nodes'. unfold ODict.keys. rewrite <- list_fmap_compose.
  by apply list_fmap_ext.
Qed.

Lemma weight_core n : weight nodes' n = weight nodes n.
Proof. unfold weight. rewrite get_core. by destruct (ODict.get nodes n). Qed.

Lemma set_core k t : ODict.set k (core t) nodes' = core_item <$> ODict.set k t nodes.
Proof.
  subst nodes'. induction nodes as [|[k0 t0] d IH]; csimpl; [done|].
  case_decide; csimpl; [done|]. by rewrite IH.
Qed.

Lemma add_dep_core task_id a dep : add_dep nodes' task_id a dep = add_dep nodes task_id a dep.
Proof.
  unfold add_dep, add_anchor. rewrite !mem_core.
  destruct (PyStr.contains "task" _); [|done].
  apply fold_left_ext. intros a' ref. unfold add_ref. by rewrite mem_core.
Qed.

Lemma add_task_core a t : add_task nodes' a (core t) = add_task nodes a t.
Proof. unfold add_task. simpl. apply fold_left_ext. intros. apply add_dep_core. Qed.

Lemma build_edges_core tasks : build_edges nodes' (core <$> tasks) = build_edges nodes tasks.
Proof.
  unfold build_edges. rewrite fold_left_fmap. apply fold_left_ext.
  intros. apply add_task_core.
Qed.

Lemma relax_core current cd s x : relax nodes' current cd s x = relax nodes current cd s x.
Proof. unfold relax. by rewrite weight_core. Qed.

Lemma kahn_core edges : kahn nodes' edges = kahn nodes edges.
Proof.
  unfold kahn, kahn_fuel, kahn_init. rewrite keys_core.
  generalize (length (ODict.keys nodes) + length (mjoin (ODict.values edges))).
  generalize (mkKahn (filter (fun n => indeg (count_in_degree edges) n = 0%Z)
                        (ODict.keys nodes)) (count_in_degree edges) [] []).
  intros s fuel. revert s. induction fuel as [|fuel IH]; intros s; simpl; [done|].
  destruct (queue s) as [|current rest]; [done|]. rewrite <- IH. f_equal.
  apply fold_left_ext. intros. apply relax_core.
Qed.

Lemma trace_back_core fuel edges lp cp current d :
  trace_back fuel nodes' edges lp cp current d = trace_back fuel nodes edges lp cp current d.
Proof.
  revert cp current d. induction fuel as [|fuel IH]; intros cp current d; simpl; [done|].
  rewrite keys_core.
  rewrite (find_ext (is_pred nodes' edges lp current d) (is_pred nodes edges lp current d)).
  - destruct (0 <? d)%float; [|done]. destruct (List.find _ _); [apply IH | done].
  - intros x. unfold is_pred. by rewrite weight_core.
Qed.

Lemma find_critical_path_core fuel edges :
  _find_critical_path fuel nodes' edges = _find_critical_path fuel nodes edges.
Proof.
  unfold _find_critical_path. rewrite kahn_core.
  destruct (kahn nodes edges) as [s|]; [|done].
  destruct (max_item (longest_path s)) as [[n d]|]; [apply trace_back_core | done].
Qed.

Lemma prereq_completed_core prereqs :
  prereq_completed nodes' prereqs = prereq_completed nodes prereqs.
Proof.
  unfold prereq_completed.
  replace (filter (fun p => ODict.mem nodes' p = true) prereqs)
    with (filter (fun p => ODict.mem nodes p = true) prereqs).
  - apply forallb_ext. intros p. rewrite get_core. by destruct (ODict.get nodes p).
  - apply list_filter_iff. intros p. by rewrite mem_core.
Qed.

Lemma classify_core r : classify nodes' r = classify nodes r.
Proof.
  unfold classify.
  change (fold_left (classify_step nodes' r) (core_item <$> nodes) ([], [])
          = fold_left (classify_step nodes r) nodes ([], [])).
  rewrite fold_left_fmap. apply fold_left_ext.
  intros acc [k t]. unfold classify_step. simpl.
  by rewrite (prereq_completed_core (ODict.get_or r k [])).
Qed.

End core.

Lemma build_nodes_core tasks : build_nodes (core <$> tasks) = core_item <$> build_nodes tasks.
Proof.
  unfold build_nodes, nodes_from.
  change (@nil (string * Task)) with (core_item <$> @nil (string * Task)) at 1.
  generalize (@nil (string * Task)). induction tasks as [|t tasks IH]; intros d; csimpl; [done|].
  change (task_key (core t)) with (task_key t). rewrite set_core. apply IH.
Qed.

(** The outcome on the cores of the tasks is the shape of the outcome on
    the tasks. *)
Lemma from_tasks_core frames fuel tasks :
  from_tasks frames fuel (core <$> tasks) = outcome_shape (from_tasks frames fuel tasks).
Proof.
  unfold from_tasks.
  rewrite build_nodes_core, build_edges_core.
  destruct (build_edges (build_nodes tasks) tasks) as [e r].
  destruct (_detect_cycles frames e); [|done..].
  rewrite find_critical_path_core.
  destruct (_find_critical_path fuel (build_nodes tasks) e); [|done].
  rewrite classify_core. by destruct (classify (build_nodes tasks) r).
Qed.

Lemma annotated_core t t' : annotated t t' → core t' = core t.
Proof. intros (Hi & Hs & Hh & Hd & _). unfold core. by rewrite Hi, Hs, Hh, Hd. Qed.

Lemma enhanced_snapshot_core frames fuel h tasks h' out summary :
  enhance_task_analysis frames fuel h tasks = Returned (h', out, summary) →
  core <$> snapshot h' tasks = core <$> snapshot h tasks.
Proof.
  unfold enhance_task_analysis.
  destruct (from_tasks frames fuel (snapshot h tasks)) as [g| |]; [|done..].
  intros [= <- _ _].
  destruct (enhance_steps g h tasks h (fun a => annotated_refl (h a))) as (Hann & _).
  unfold snapshot. rewrite <- !list_fmap_compose. apply list_fmap_ext.
  intros i a _. simpl. apply annotated_core, Hann.
Qed.
(** ** How often an edge is listed *)

Lemma neighbors_append_at_eq d k x k' :
  neighbors (append_at k x d) k'
  = if decide (k = k') then neighbors d k' ++ [x] else neighbors d k'.
Proof.
  unfold neighbors, append_at, ODict.get_or. rewrite get_set.
  by destruct (decide (k = k')) as [->|].
Qed.

Lemma count_of_snoc x l y :
  count_of x (l ++ [y]) = count_of x l + (if decide (x = y) then 1 else 0).
Proof.
  induction l as [|z l IH]; simpl; [lia|]. rewrite IH. lia.
Qed.

Lemma add_edge_mirrored a p t : mirrored a → mirrored (add_edge p t a).
Proof.
  intros Ha p' t'. unfold add_edge. simpl. rewrite !neighbors_append_at_eq.
  specialize (Ha p' t').
  destruct (decide (p = p')) as [->|Hp], (decide (t = t')) as [->|Ht];
    rewrite ?count_of_snoc, ?decide_True, ?decide_False by done; lia.
Qed.

Lemma fold_left_tasks_inv (P : adjacency → Prop) nodes tasks :
  P ([], []) →
  (∀ a p t, P a → ODict.mem nodes p = true → P (add_edge p t a)) →
  P (build_edges nodes tasks).
Proof.
  intros Hnil Hedge. unfold build_edges. apply fold_left_inv; [done|].
  intros a t _ Ha. unfold add_task. apply fold_left_inv; [done|].
  intros a' dep _ Ha'. unfold add_dep.
  destruct (PyStr.contains "task" _).
  - apply fold_left_inv; [done|]. intros a'' ref _ Ha''. unfold add_ref.
    destruct (ODict.mem nodes _) eqn:Hm; [by apply Hedge | done].
  - unfold add_anchor.
    destruct (any_keyword testing_keywords _).
    { destruct (ODict.mem nodes "#1") eqn:Hm; simpl; [|done].
      destruct (negb _); [by apply Hedge | done]. }
    destruct (any_keyword aar_keywords _); [|done].
    destruct (ODict.mem nodes "#4") eqn:Hm; simpl; [|done].
    destruct (negb _); [by apply Hedge | done].
Qed.

Lemma mirrored_graph tasks : mirrored (graph_adjacency tasks).
Proof.
  unfold graph_adjacency. apply fold_left_tasks_inv.
  - by intros p t.
  - intros a p t Ha _. by apply add_edge_mirrored.
Qed.

Lemma strip_prefix_prefix p s r : PyStr.strip_prefix p s = Some r → String.prefix p s = true.
Proof.
  revert s. induction p as [|a p IH]; intros s; [by destruct s|].
  destruct s as [|b s]; simpl; [done|].
  destruct (Ascii.eqb_spec a b) as [->|Hne]; [|done].
  intros Hr. destruct (Ascii.ascii_dec b b); [by eapply IH | done].
Qed.

Lemma match_task_ref_spec s ds len :
  PyStr.match_task_ref s = Some (ds, len) →
  String.prefix "task" s = true
  ∧ all_chars PyStr.is_digit ds = true ∧ ds ≠ "".
Proof.
  unfold PyStr.match_task_ref.
  destruct (PyStr.strip_prefix "task" s) as [r|] eqn:Hr; [|done].
  apply strip_prefix_prefix in Hr.
  set (r1 := PyStr.drop_while PyStr.is_space r).
  set (hr := match r1 with
             | String c r' => if PyStr.is_hash c then (1, r') else (0, r1)
             | EmptyString => (0, r1)
             end).
  destruct hr as [hash r2].
  destruct (PyStr.take_while PyStr.is_digit r2) as [|d ds'] eqn:Hds; simpl; [done|].
  intros [= <- _]. split_and!; [done | | done].
  rewrite <- Hds. apply drop_while_spec.
Qed.

Lemma findall_from_spec skip s ref :
  ref ∈ PyStr.findall_from skip s →
  PyStr.contains "task" s = true
  ∧ all_chars PyStr.is_digit ref = true ∧ ref ≠ "".
Proof.
  revert skip. induction s as [|c s IH]; intros skip; [by intros ?%elem_of_nil|].
  cbn [PyStr.findall_from PyStr.contains].
  assert (Hrest : ∀ k, ref ∈ PyStr.findall_from k s →
    String.prefix "task" (String c s) || PyStr.contains "task" s = true
    ∧ all_chars PyStr.is_digit ref = true ∧ ref ≠ "").
  { intros k (Hc & Hd & He)%IH. rewrite Hc, orb_true_r. done. }
  destruct skip as [|k]; [|apply Hrest].
  destruct (PyStr.match_task_ref (String c s)) as [[ds len]|] eqn:Hm; [|apply Hrest].
  apply match_task_ref_spec in Hm as (Hp & Hd & He).
  intros [->|Hin]%elem_of_cons.
  - by rewrite Hp.
  - destruct (Hrest _ Hin) as (_ & ? & ?). by rewrite Hp.
Qed.

Lemma findall_without_task s :
  PyStr.contains "task" s = false → PyStr.findall_task_refs s = [].
Proof.
  intros Hc. unfold PyStr.findall_task_refs.
  destruct (PyStr.findall_from 0 s) as [|ref l] eqn:Hl; [done|].
  destruct (findall_from_spec 0 s ref) as (Hc' & _); [rewrite Hl; by left|]. congruence.
Qed.



Section edge_count.
Context (nodes : ODict.t Task) (p t : string).






End edge_count.




(** * Further properties *)

(** ** The inferred edges *)

(** X1.  The reverse adjacency is the transpose of the forward one, with
    the same repetitions: an id [t] is in the forward list of [p] as many
    times as [p] is in the reverse list of [t]. *)
Theorem reverse_is_transpose (tasks : list Task) :
  (∀ p t, count_of t (neighbors (graph_adjacency tasks).1 p)
          = count_of p (neighbors (graph_adjacency tasks).2 t))
  ∧ (∀ p t, t ∈ neighbors (graph_adjacency tasks).1 p
            ↔ p ∈ neighbors (graph_adjacency tasks).2 t).
Proof.
  assert (Hm : mirrored (graph_adjacency tasks)).
  { unfold graph_adjacency. apply fold_left_tasks_inv.
    - by intros p t.
    - intros a p t Ha _. by apply add_edge_mirrored. }
  split; [exact Hm|]. intros p t. specialize (Hm p t). split; intros Hin.
  - apply count_of_pos_elem_of. apply count_of_elem_of in Hin. lia.
  - apply count_of_pos_elem_of. apply count_of_elem_of in Hin. lia.
Qed.

(** ** The numeric references *)

(** X2.  A reference that the pattern [task\s*#?(\d+)] extracts from a
    text is a non-empty string of decimal digits, and the text holds the
    word [task]. *)
Theorem extracted_references_are_numbers (s ref : string) :
  ref ∈ PyStr.findall_task_refs s →
  ref ≠ "" ∧ all_chars PyStr.is_digit ref = true ∧ PyStr.contains "task" s = true.
Proof.
  intros (Hc & Hd & He)%findall_from_spec. done.
Qed.

Lemma extracted_references_witness :
  "23" ≠ "" ∧ all_chars PyStr.is_digit "23" = true
  ∧ PyStr.contains "task" "see task #1 and task 23" = true.
Proof.
  apply (extracted_references_are_numbers "see task #1 and task 23" "23").
  vm_compute. right. left.
Defined.

Lemma add_ref_new nodes task_id a ref :
  ODict.mem nodes ("#" +:+ ref) = true →
  edge_pair (add_ref nodes task_id a ref) ("#" +:+ ref) task_id.
Proof. intros Hm. unfold add_ref. rewrite Hm. apply add_edge_new. Qed.

(** X3.  The numeric rule: every number that a dependency text of a task
    refers to, and whose id ["#" number] is a node, gives the edge from
    that node to the task, in both adjacencies; the task itself is not
    excepted. *)
Theorem numeric_rule (tasks : list Task) (t : Task) (dep ref : string) :
  t ∈ tasks → dep ∈ dependencies t →
  ref ∈ PyStr.findall_task_refs (PyStr.lower (PyStr.strip dep)) →
  ODict.mem (build_nodes tasks) ("#" +:+ ref) = true →
  edge_pair (graph_adjacency tasks) ("#" +:+ ref) (task_key t).
Proof.
  intros Ht Hdep Href Hm.
  pose proof (findall_from_spec _ _ _ Href) as (Hc & _).
  unfold graph_adjacency, build_edges.
  apply (fold_left_elem (fun a => edge_pair a ("#" +:+ ref) (task_key t)) _ _ _ t Ht).
  - intros a. unfold add_task.
    apply (fold_left_elem (fun a => edge_pair a ("#" +:+ ref) (task_key t)) _ _ _ dep Hdep).
    + intros a'. unfold add_dep. rewrite Hc.
      apply (fold_left_elem (fun a => edge_pair a ("#" +:+ ref) (task_key t)) _ _ _ ref Href).
      * intros a''. by apply add_ref_new.
      * intros a'' ref'. apply add_ref_keeps.
    + intros a' dep'. apply add_dep_keeps.
  - intros a t'. apply add_task_keeps.
Qed.

Lemma numeric_rule_witness :
  edge_pair (graph_adjacency numeric_tasks) "#1" "#2"
  ∧ edge_pair (graph_adjacency numeric_tasks) "#2" "#2".
Proof.
  split.
  - apply (numeric_rule numeric_tasks (T "#2" PENDING 1 ["after Task #1 and task 2"])
             "after Task #1 and task 2" "1");
      [right; left | left | vm_compute; left | reflexivity].
  - apply (numeric_rule numeric_tasks (T "#2" PENDING 1 ["after Task #1 and task 2"])
             "after Task #1 and task 2" "2");
      [right; left | left | vm_compute; right; left | reflexivity].
Defined.

(** ** Where an edge comes from *)

Lemma neighbors_add_edge a p t p' t' :
  t' ∈ neighbors (add_edge p t a).1 p' ↔ t' ∈ neighbors a.1 p' ∨ (p' = p ∧ t' = t).
Proof. unfold add_edge. simpl. apply neighbors_append_at. Qed.

Lemma edges_explained_graph tasks :
  edges_explained (build_nodes tasks) tasks (graph_adjacency tasks).
Proof.
  set (nodes := build_nodes tasks).
  unfold graph_adjacency, build_edges. fold nodes.
  apply (fold_left_inv (edges_explained nodes tasks)).
  { intros p t Hin. by apply elem_of_nil in Hin. }
  intros a task Htask Ha. unfold add_task.
  apply (fold_left_inv (edges_explained nodes tasks)); [done|].
  intros a' dep Hdep Ha'.
  assert (Hstep : ∀ a0 p,
    edges_explained nodes tasks a0 → edge_reason nodes dep p (task_key task) →
    edges_explained nodes tasks (add_edge p (task_key task) a0)).
  { intros a0 p Ha0 Hreason p' t' [Hold|[-> ->]]%neighbors_add_edge; [by apply Ha0|].
    by exists task, dep. }
  unfold add_dep.
  destruct (PyStr.contains "task" _) eqn:Hc.
  - apply (fold_left_inv (edges_explained nodes tasks)); [done|].
    intros a'' ref Href Ha''. unfold add_ref.
    destruct (ODict.mem nodes _) eqn:Hm; [|done].
    apply Hstep; [done|]. split; [done|]. left. by exists ref.
  - unfold add_anchor.
    destruct (any_keyword testing_keywords _) eqn:Hk1.
    { destruct (ODict.mem nodes "#1") eqn:Hm; simpl; [|done].
      case_bool_decide as Hne; simpl; [done|].
      apply Hstep; [done|]. split; [done|]. right. left. done. }
    destruct (any_keyword aar_keywords _) eqn:Hk2; [|done].
    destruct (ODict.mem nodes "#4") eqn:Hm; simpl; [|done].
    case_bool_decide as Hne; simpl; [done|].
    apply Hstep; [done|]. split; [done|]. right. right. done.
Qed.

(** X4.  Every forward edge comes from a dependency text of a task of the
    list whose key is the target: the text refers to the number of the
    source, or it holds a keyword and the source is the anchor of that
    keyword, which is then not the target; the source is a node.  So an
    id is its own neighbour only through a numeric reference, and a key
    whose tasks have no dependency text has no prerequisite. *)
Theorem edges_have_reasons (tasks : list Task) :
  (∀ p t, t ∈ neighbors (graph_adjacency tasks).1 p →
     ∃ task dep, task ∈ tasks ∧ task_key task = t ∧ dep ∈ dependencies task
                 ∧ edge_reason (build_nodes tasks) dep p t)
  ∧ (∀ k, k ∈ neighbors (graph_adjacency tasks).1 k →
       ∃ task dep ref, task ∈ tasks ∧ task_key task = k ∧ dep ∈ dependencies task
                       ∧ ref ∈ PyStr.findall_task_refs (PyStr.lower (PyStr.strip dep))
                       ∧ k = "#" +:+ ref)
  ∧ (∀ k, (∀ task, task ∈ tasks → task_key task = k → dependencies task = []) →
          neighbors (graph_adjacency tasks).2 k = []).
Proof.
  pose proof (edges_explained_graph tasks) as Hex. split_and!.
  - exact Hex.
  - intros k (task & dep & Htask & Hkey & Hdep & _ & Hreason)%Hex.
    destruct Hreason as [(ref & Href & Hp)|[(_ & _ & Hp & Hne)|(_ & _ & _ & Hp & Hne)]];
      [|done..].
    by exists task, dep, ref.
  - intros k Hnone.
    destruct (neighbors (graph_adjacency tasks).2 k) as [|p ps] eqn:Hn; [done|].
    assert (Hin : k ∈ neighbors (graph_adjacency tasks).1 p).
    { apply count_of_pos_elem_of.
      assert (Hm : mirrored (graph_adjacency tasks)).
      { unfold graph_adjacency. apply fold_left_tasks_inv.
        - by intros ? ?.
        - intros a p' t' Ha _. by apply add_edge_mirrored. }
      rewrite (Hm p k), Hn. simpl. rewrite decide_True by done. lia. }
    apply Hex in Hin as (task & dep & Htask & Hkey & Hdep & _).
    rewrite (Hnone task Htask Hkey) in Hdep. by apply elem_of_nil in Hdep.
Qed.

(** ** Cycle detection on an adjacency without cycle *)

Lemma chain_tc edges l1 x l2 y :
  chain edges (l1 ++ x :: l2 ++ [y]) → tc (fun a b => b ∈ neighbors edges a) x y.
Proof.
  revert l1 x. induction l2 as [|z l2 IH]; intros l1 x Hch.
  - apply tc_once. by apply (Hch l1 x y []).
  - eapply tc_l.
    + by apply (Hch l1 x z (l2 ++ [y])).
    + apply (IH (l1 ++ [x]) z). by rewrite <- app_assoc.
Qed.

Lemma chain_repeat_on_cycle edges path node :
  chain edges (path ++ [node]) → node ∈ path → on_cycle edges node.
Proof.
  intros Hch (l1 & l2 & ->)%list_elem_of_split.
  apply (chain_tc edges l1 node l2 node). by rewrite <- app_assoc in Hch.
Qed.

Section acyclic_search.
Context (edges : ODict.t (list string)) (Hacyclic : acyclic edges).

Lemma visit_neighbors_quiet call node nbrs st (stack : gset string) :
  (∀ n s, n ∈ nbrs → rec_stack s = stack → cycles s = [] → quiet (call n s) stack) →
  rec_stack st = stack → node ∈ stack → cycles st = [] →
  quiet (visit_neighbors call node nbrs st) (stack ∖ {[node]}).
Proof.
  revert st. induction nbrs as [|n rest IH]; intros st Hcall Hst Hnode Hcyc; simpl.
  - rewrite decide_True by (by rewrite Hst). right. eexists. split; [done|].
    simpl. by rewrite Hst.
  - destruct (Hcall n st) as [->|(s & -> & Hs & Hs')]; [by left | done | done | by left |].
    apply IH; [|done..]. intros n' s0 Hn'. apply Hcall. by right.
Qed.

Lemma dfs_quiet frames node path st :
  (∀ x, x ∈ rec_stack st → x ∈ path) → chain edges (path ++ [node]) →
  cycles st = [] →
  quiet (dfs frames edges node path st) (rec_stack st).
Proof.
  revert node path st.
  induction frames as [|frames IH]; intros node path st Hstack Hch Hcyc; simpl; [by left|].
  case_decide as Hrec.
  { destruct (Hacyclic node). apply (chain_repeat_on_cycle edges path); auto. }
  case_decide; [right; by exists st|].
  replace (rec_stack st) with (({[node]} ∪ rec_stack st) ∖ {[node]}) at 2 by set_solver.
  apply visit_neighbors_quiet; [|done | set_solver | done].
  intros n s Hn Hs Hc. rewrite <- Hs. apply IH; [|by apply chain_snoc | done].
  intros x. rewrite Hs. set_solver.
Qed.

Lemma dfs_roots_quiet frames roots st :
  rec_stack st = ∅ → cycles st = [] →
  dfs_roots frames edges roots st = Raised RecursionError
  ∨ ∃ st', dfs_roots frames edges roots st = Returned st' ∧ cycles st' = [].
Proof.
  revert st. induction roots as [|node roots IH]; intros st Hst Hcyc; cbn [dfs_roots].
  - right. by exists st.
  - case_decide; [by apply IH|].
    destruct (dfs_quiet frames node [] st) as [->|(s & -> & Hs & Hs')];
      [set_solver | apply chain_singleton | done | by left |].
    apply IH; [congruence | done].
Qed.

Lemma detect_cycles_acyclic frames :
  _detect_cycles frames edges = Returned []
  ∨ _detect_cycles frames edges = Raised RecursionError.
Proof.
  unfold _detect_cycles.
  destruct (dfs_roots_quiet frames (ODict.keys edges) (mkDfs ∅ ∅ []))
    as [Hr|(st & Hr & Hc)]; [done | done | |]; rewrite Hr; [by right|].
  left. by rewrite Hc.
Qed.

Lemma detect_cycles_acyclic_returns frames :
  size (universe_set edges) < frames → _detect_cycles frames edges = Returned [].
Proof.
  intros Hframes. destruct (detect_cycles_acyclic frames) as [Hr|Hr]; [done|].
  by apply detect_cycles_total in Hr.
Qed.

End acyclic_search.

(** ** When the detection reports nothing *)

Lemma visit_neighbors_cycles_grow call node nbrs st b st' :
  (∀ n s b s', call n s = Returned (b, s') →
     length (cycles s) ≤ length (cycles s') ∧ (b = true → 0 < length (cycles s'))) →
  visit_neighbors call node nbrs st = Returned (b, st') →
  length (cycles st) ≤ length (cycles st') ∧ (b = true → 0 < length (cycles st')).
Proof.
  intros Hcall. revert st. induction nbrs as [|n rest IH]; intros st; simpl.
  - case_decide; [|done]. intros [= <- <-]. simpl. split; [lia | done].
  - destruct (call n st) as [[[] s]| |] eqn:Hn; [| |done..].
    + intros [= <- <-]. by apply (Hcall n st).
    + intros Hrest. destruct (Hcall n st false s Hn) as [Hle _].
      destruct (IH s Hrest) as [Hle' Hpos]. split; [lia | done].
Qed.

Lemma dfs_cycles_grow frames edges node path st b st' :
  dfs frames edges node path st = Returned (b, st') →
  length (cycles st) ≤ length (cycles st') ∧ (b = true → 0 < length (cycles st')).
Proof.
  revert node path st b st'.
  induction frames as [|frames IH]; intros node path st b st'; simpl; [done|].
  case_decide.
  - destruct (index_of node path); [|done]. intros [= <- <-]. simpl.
    rewrite length_app. simpl. split; lia.
  - case_decide; [intros [= <- <-]; split; [lia | done]|].
    intros Hv. apply visit_neighbors_cycles_grow in Hv; [done|].
    intros n s b0 s0. apply IH.
Qed.

Lemma tc_first {A} (R : relation A) x y : tc R x y → ∃ n, R x n ∧ rtc R n y.
Proof.
  intros Hxy. destruct Hxy as [x y Hxy | x n y Hxn Hny].
  - exists y. split; [done | apply rtc_refl].
  - exists n. split; [done | by apply tc_rtc].
Qed.

Section finished_nodes.
Context (edges : ODict.t (list string)).

Lemma finished_reach st f n :
  finished_ok edges st → f ∈ finished st →
  rtc (fun a b => b ∈ neighbors edges a) f n → n ∈ finished st.
Proof.
  intros [Hstep _] Hf Hreach. induction Hreach as [|x y z Hxy _ IH]; [done|].
  apply IH. by apply (Hstep x).
Qed.

Lemma visit_neighbors_finished call node nbrs st st' :
  (∀ n s s', n ∈ nbrs → finished_ok edges s → call n s = Returned (false, s') →
     finished_ok edges s' ∧ visited s ⊆ visited s' ∧ rec_stack s' = rec_stack s
     ∧ n ∈ finished s') →
  finished_ok edges st →
  visit_neighbors call node nbrs st = Returned (false, st') →
  ∃ s, finished_ok edges s ∧ visited st ⊆ visited s ∧ rec_stack s = rec_stack st
       ∧ (∀ n, n ∈ nbrs → n ∈ finished s)
       ∧ node ∈ rec_stack s
       ∧ st' = mkDfs (visited s) (rec_stack s ∖ {[node]}) (cycles s).
Proof.
  revert st. induction nbrs as [|n rest IH]; intros st Hcall Hst; simpl.
  - case_decide as Hnode; [|done]. intros [= <-]. exists st.
    split_and!; try done. by intros n ?%elem_of_nil.
  - destruct (call n st) as [[[] s]| |] eqn:Hn; [done | | done..].
    destruct (Hcall n st s) as (Hs & Hvis & Hrec & Hfin); [by left | done | done|].
    intros Hrest. destruct (IH s) as (s0 & Hs0 & Hvis0 & Hrec0 & Hfin0 & Hnode & ->);
      [intros n' s1 s1' Hn'; apply Hcall; by right | done | done|].
    exists s0. split_and!; [done | set_solver | congruence | | done | done].
    intros n' [->|Hn']%elem_of_cons; [|by apply Hfin0].
    unfold finished in *. rewrite Hrec0. set_solver.
Qed.

Lemma dfs_finished frames node path st st' :
  finished_ok edges st →
  dfs frames edges node path st = Returned (false, st') →
  finished_ok edges st' ∧ visited st ⊆ visited st' ∧ rec_stack st' = rec_stack st
  ∧ node ∈ finished st'.
Proof.
  revert node path st st'.
  induction frames as [|frames IH]; intros node path st st' Hst; simpl; [done|].
  case_decide as Hrec; [by destruct (index_of node path)|].
  case_decide as Hvis.
  { intros [= <-]. split_and!; [done | done | done|]. unfold finished. set_solver. }
  intros Hv.
  apply visit_neighbors_finished in Hv
    as (s & [Hstep Hacyc] & Hsub & Hrs & Hnb & Hnode & ->).
  - simpl in *.
    assert (Hfin : ∀ x, x ∈ finished (mkDfs (visited s) (rec_stack s ∖ {[node]}) (cycles s))
                        ↔ x = node ∨ x ∈ finished s).
    { intros x. unfold finished. simpl. rewrite Hrs.
      destruct (decide (x = node)); set_solver. }
    split_and!; [split| set_solver | rewrite Hrs; set_solver | apply Hfin; by left].
    + intros f n [->|Hf]%Hfin Hn; apply Hfin; right; [by apply Hnb | by apply (Hstep f)].
    + intros f [->|Hf]%Hfin; [|by apply Hacyc].
      intros (n & Hn & Hreach)%tc_first.
      assert (node ∈ finished s) as Hbad.
      { apply (finished_reach s n); [done | by apply Hnb | done]. }
      unfold finished in Hbad. set_solver.
  - intros n s s' Hn Hs. by apply IH.
  - destruct Hst as [Hstep Hacyc]. split.
    + intros f n Hf Hn. unfold finished in *. simpl in *.
      assert (n ∈ visited st ∖ rec_stack st) by (apply (Hstep f); set_solver).
      set_solver.
    + intros f Hf. apply Hacyc. unfold finished in *. simpl in *. set_solver.
Qed.

Lemma dfs_roots_finished frames roots st st' :
  finished_ok edges st → rec_stack st = ∅ →
  dfs_roots frames edges roots st = Returned st' → cycles st' = [] →
  finished_ok edges st' ∧ rec_stack st' = ∅
  ∧ ∀ n, n ∈ roots ∨ n ∈ visited st → n ∈ visited st'.
Proof.
  revert st. induction roots as [|node roots IH]; intros st Hst Hrec; cbn [dfs_roots].
  - intros [= <-] _. split_and!; [done | done|].
    intros n [[]%elem_of_nil|Hn]; done.
  - case_decide as Hvis.
    + intros Hr Hc. destruct (IH st Hst Hrec Hr Hc) as (H1 & H2 & H3).
      split_and!; [done | done|]. intros n [[->|Hn]%elem_of_cons|Hn]; apply H3; auto.
    + destruct (dfs frames edges node [] st) as [[b s]| |] eqn:Hd; [|done..].
      intros Hr Hc.
      assert (b = false) as ->.
      { destruct b; [|done]. apply dfs_cycles_grow in Hd as [_ Hpos].
        assert (Hgrow : ∀ roots s s', dfs_roots frames edges roots s = Returned s' →
                                      length (cycles s) ≤ length (cycles s')).
        { clear. induction roots as [|r roots IH]; intros s s'; cbn [dfs_roots].
          - by intros [= <-].
          - case_decide; [apply IH|].
            destruct (dfs frames edges r [] s) as [[b s0]| |] eqn:Hd; [|done..].
            intros Hr%IH. apply dfs_cycles_grow in Hd as [Hle _]. lia. }
        apply Hgrow in Hr. rewrite Hc in Hr. simpl in Hr. specialize (Hpos eq_refl). lia. }
      apply dfs_finished in Hd as (Hs & Hsub & Hrs & Hnode); [|done].
      destruct (IH s Hs) as (H1 & H2 & H3); [congruence | done | done|].
      split_and!; [done | done|].
      intros n [[->|Hn]%elem_of_cons|Hn]; apply H3;
        [right; unfold finished in Hnode; set_solver | by left | right; set_solver].
Qed.

Lemma detect_cycles_nil_acyclic frames :
  _detect_cycles frames edges = Returned [] → acyclic edges.
Proof.
  unfold _detect_cycles.
  destruct (dfs_roots _ edges _ _) as [st| |] eqn:Hr; [|done..].
  intros [= Hc] n Hn.
  apply dfs_roots_finished in Hr as ([Hstep Hacyc] & Hrec & Hvis); [| |done|done].
  - apply (Hacyc n); [|done]. unfold finished. rewrite Hrec.
    assert (n ∈ visited st); [|set_solver]. apply Hvis. left.
    destruct (tc_first _ _ _ Hn) as (m & Hm & _). by apply get_or_elem_of in Hm.
  - split; intros f; unfold finished; simpl; set_solver.
Qed.

End finished_nodes.

(** X5.  When the cycle detection returns the empty list, no id is on a
    cycle of the forward adjacency.  On an adjacency without cycle it
    returns the empty list or, when the recursion finds no frame left,
    raises [RecursionError]; with more frames than the adjacency has ids
    it returns the empty list exactly when the adjacency has no cycle. *)
Theorem no_cycle_reported_iff_acyclic (frames : nat) (edges : ODict.t (list string)) :
  (_detect_cycles frames edges = Returned [] → acyclic edges)
  ∧ (acyclic edges →
     _detect_cycles frames edges = Returned []
     ∨ _detect_cycles frames edges = Raised RecursionError)
  ∧ (size (universe_set edges) < frames →
     (_detect_cycles frames edges = Returned [] ↔ acyclic edges)).
Proof.
  split_and!.
  - apply detect_cycles_nil_acyclic.
  - intros Hacyclic. by apply detect_cycles_acyclic.
  - intros Hframes. split; [apply detect_cycles_nil_acyclic|].
    intros Hacyclic. by apply detect_cycles_acyclic_returns.
Qed.

(** X6.  The cycle detection ends for every adjacency and every number of
    frames: it returns its cycles, or raises the [ValueError] of
    [path.index], or raises [RecursionError]; [rec_stack.remove] never
    raises.  The [ValueError] is raised only when the adjacency has a
    cycle, the [RecursionError] only when the frames are no more than
    the ids of the adjacency. *)
Theorem detection_outcome (frames : nat) (edges : ODict.t (list string)) :
  ((∃ cs, _detect_cycles frames edges = Returned cs)
   ∨ _detect_cycles frames edges = Raised ValueError
   ∨ _detect_cycles frames edges = Raised RecursionError)
  ∧ (_detect_cycles frames edges = Raised ValueError → ¬ acyclic edges)
  ∧ (_detect_cycles frames edges = Raised RecursionError →
     frames ≤ size (universe_set edges)).
Proof.
  split_and!; [apply detect_cycles_outcome | |].
  - intros He Hacyclic.
    destruct (detect_cycles_acyclic edges Hacyclic frames); congruence.
  - intros He. destruct (decide (size (universe_set edges) < frames)) as [Hlt|]; [|lia].
    by apply detect_cycles_total in He.
Qed.

(** ** The order of the worklist *)

Section worklist_facts.
Context (nodes : ODict.t Task) (edges : ODict.t (list string)).
Context (Hnodes : NoDup (ODict.keys nodes)) (Hedges : NoDup (ODict.keys edges)).

Lemma kahn_init_order : kahn_order nodes edges [] (kahn_init nodes edges).
Proof.
  unfold kahn_init. constructor; simpl.
  - intros [|? ?] ? ? ? ?; done.
  - intros n Hn Hz. rewrite app_nil_r. apply list_elem_of_filter. split; [|done].
    rewrite indeg_count_in_degree. lia.
Qed.

Lemma relax_order current cd x rest s :
  kahn_inv nodes edges (x :: rest) s → kahn_order nodes edges (x :: rest) s →
  kahn_order nodes edges rest (relax nodes current cd s x).
Proof.
  intros [Hnd Hdeg Hz Hu Hr Hlp Hac] [Hsorted Hzero].
  assert (Hd : (indeg (in_degree s) x - 1)%Z
               = Z.of_nat (incoming edges (popped s) x + count_of x rest)).
  { rewrite Hdeg, count_of_cons, decide_True by done. lia. }
  unfold relax. constructor; simpl; [done|].
  intros n Hn Hz'. destruct (decide (n = x)) as [->|Hne].
  - rewrite Hd. replace (Z.of_nat _ =? 0)%Z with true by (symmetry; apply Z.eqb_eq; lia).
    rewrite !elem_of_app, list_elem_of_singleton. auto.
  - assert (n ∈ queue s ++ popped s) as Hin.
    { apply Hzero; [done|]. rewrite count_of_cons, decide_False by done. lia. }
    destruct (_ =? _)%Z; [|done].
    apply elem_of_app in Hin as [?|?]; rewrite !elem_of_app; auto.
Qed.

Lemma relax_all_order current cd rest s :
  kahn_inv nodes edges rest s → kahn_order nodes edges rest s →
  kahn_order nodes edges [] (fold_left (relax nodes current cd) rest s).
Proof.
  revert s. induction rest as [|x rest IH]; intros s Hs Ho; simpl; [done|].
  apply IH.
  - by apply (relax_preserves nodes edges current cd x rest s).
  - by apply relax_order.
Qed.

Lemma pop_order s current rest :
  kahn_inv nodes edges [] s → kahn_order nodes edges [] s →
  queue s = current :: rest →
  kahn_order nodes edges (neighbors edges current)
    (mkKahn rest (in_degree s) (longest_path s) (popped s ++ [current])).
Proof.
  intros [Hnd Hdeg Hz Hu Hr Hlp Hac] [Hsorted Hzero] Hq. rewrite Hq in *.
  assert (Hcur : current ∉ popped s).
  { simpl in Hnd. apply NoDup_cons in Hnd as [Hc _].
    intros Hin. apply Hc, elem_of_app. by right. }
  constructor; simpl.
  - intros l1 n l2 p Heq Hp.
    destruct l2 as [|z l2 _] using rev_ind.
    + apply app_inj_tail in Heq as [<- <-].
      apply (incoming_zero_pred edges (popped s) p current); [|done].
      specialize (Hz current). simpl in Hz.
      assert (current ∈ current :: rest ++ popped s) as Hin by (by left).
      specialize (Hz Hin). lia.
    + change (l1 ++ n :: l2 ++ [z]) with (l1 ++ (n :: l2) ++ [z]) in Heq.
      rewrite app_assoc in Heq. apply app_inj_tail in Heq as [Heq _].
      by apply (Hsorted l1 n l2 p).
  - intros n Hn Hz'.
    rewrite <- (incoming_pop edges (popped s) current n) in Hz' by done.
    assert (n ∈ (current :: rest) ++ popped s) as Hin.
    { apply Hzero; [done|]. simpl. lia. }
    revert Hin. rewrite !elem_of_app, !elem_of_cons, elem_of_nil. tauto.
Qed.

Lemma kahn_loop_order fuel s s' :
  kahn_inv nodes edges [] s → kahn_order nodes edges [] s →
  kahn_loop fuel nodes edges s = Some s' →
  kahn_order nodes edges [] s'.
Proof.
  revert s. induction fuel as [|fuel IH]; intros s Hs Ho; simpl.
  - destruct (queue s); [by intros [= <-] | done].
  - destruct (queue s) as [|current rest] eqn:Hq; [by intros [= <-]|].
    pose proof (pop_inv nodes edges Hedges s current rest Hs Hq) as Hpop.
    pose proof (pop_order s current rest Hs Ho Hq) as Hpo.
    apply IH.
    + by apply relax_all.
    + by apply relax_all_order.
Qed.

Lemma kahn_result :
  ∃ s, kahn nodes edges = Some s ∧ queue s = []
       ∧ kahn_inv nodes edges [] s ∧ kahn_order nodes edges [] s.
Proof.
  destruct (kahn_total nodes edges Hnodes Hedges) as (s & Hk & Hq & Hs).
  exists s. split_and!; [done | done | done|].
  unfold kahn in Hk. eapply kahn_loop_order; [| |exact Hk].
  - by apply kahn_init_inv.
  - apply kahn_init_order.
Qed.

End worklist_facts.

Lemma elem_of_values_get {V} (d : ODict.t V) v :
  NoDup (ODict.keys d) → v ∈ ODict.values d → ∃ k, ODict.get d k = Some v.
Proof.
  intros Hnd ([k v'] & -> & Hin)%list_elem_of_fmap. exists k.
  by apply get_Some_elem_of.
Qed.

Lemma kahn_universe_nodes tasks q :
  q ∈ kahn_universe (build_nodes tasks) (graph_adjacency tasks).1 →
  q ∈ ODict.keys (build_nodes tasks).
Proof.
  unfold kahn_universe. intros [Hq|Hq]%elem_of_app; [done|].
  apply list_elem_of_join in Hq as (l & Hq & Hl).
  apply elem_of_values_get in Hl as [k Hk]; [|apply NoDup_graph_adjacency].
  destruct (closed_graph_adjacency tasks) as [Hcl _].
  by apply (Hcl k l Hk).
Qed.

(** X7.  The worklist phase of the critical-path computation returns for
    every task list with an empty queue.  It takes each node from the
    queue at most once; the nodes taken are the nodes whose remaining
    in-degree ends at zero; no in-degree goes below zero; and the nodes
    are taken in an order in which each comes after every node that has
    a forward edge to it. *)
Theorem worklist_order (tasks : list Task) :
  ∃ s, kahn (build_nodes tasks) (graph_adjacency tasks).1 = Some s
    ∧ queue s = []
    ∧ NoDup (popped s)
    ∧ length (popped s) ≤ length (build_nodes tasks)
    ∧ (∀ n, n ∈ popped s ↔
            n ∈ ODict.keys (build_nodes tasks) ∧ indeg (in_degree s) n = 0%Z)
    ∧ (∀ n, (0 ≤ indeg (in_degree s) n)%Z)
    ∧ (∀ l1 n l2 p, popped s = l1 ++ n :: l2 →
                    n ∈ neighbors (graph_adjacency tasks).1 p → p ∈ l1).
Proof.
  destruct (kahn_result (build_nodes tasks) (graph_adjacency tasks).1
              (NoDup_build_nodes tasks) (proj1 (NoDup_graph_adjacency tasks)))
    as (s & Hk & Hq & [Hnd Hdeg Hz Hu Hr Hlp Hac] & [Hsorted Hzero]).
  rewrite Hq in *. simpl in *.
  assert (Hin : ∀ n, n ∈ popped s → n ∈ ODict.keys (build_nodes tasks)).
  { intros n Hn. by apply kahn_universe_nodes, Hu. }
  exists s. split_and!; [done | done | done | | | | done].
  - replace (length (build_nodes tasks)) with (length (ODict.keys (build_nodes tasks)))
      by apply length_fmap.
    by apply submseteq_length, NoDup_submseteq.
  - intros n. split.
    + intros Hn. split; [by apply Hin|]. rewrite Hdeg. specialize (Hz n Hn). lia.
    + intros [Hn Hd]. apply Hzero; [done|]. rewrite Hdeg in Hd. lia.
  - intros n. rewrite Hdeg. lia.
Qed.

(** ** The worklist on a graph without cycle *)

Lemma chain_cons edges p h l :
  chain edges (h :: l) → h ∈ neighbors edges p → chain edges (p :: h :: l).
Proof.
  intros Hch Hp [|a l1] x y l2 Heq; simplify_eq/=; [done|].
  by apply (Hch l1 x y l2).
Qed.

Lemma chain_prefix edges l1 l2 : chain edges (l1 ++ l2) → chain edges l1.
Proof.
  intros Hch a x y b ->. apply (Hch a x y (b ++ l2)).
  by rewrite <- !app_assoc.
Qed.

Lemma not_NoDup_split (l : list string) :
  ¬ NoDup l → ∃ x l1 l2 l3, l = l1 ++ x :: l2 ++ x :: l3.
Proof.
  induction l as [|a l IH]; intros Hnd; [destruct Hnd; constructor|].
  destruct (decide (a ∈ l)) as [Hin|Hnin].
  - apply list_elem_of_split in Hin as (l2 & l3 & ->). by exists a, [], l2, l3.
  - destruct IH as (x & l1 & l2 & l3 & ->).
    + intros Hl. apply Hnd. by constructor.
    + by exists x, (a :: l1), l2, l3.
Qed.

Lemma incoming_pos_pred (edges : ODict.t (list string)) gone n :
  NoDup (ODict.keys edges) → 0 < incoming edges gone n →
  ∃ p, (p ∉ gone) ∧ n ∈ neighbors edges p.
Proof.
  unfold neighbors, ODict.get_or, ODict.keys.
  induction edges as [|[u l] es IH]; intros Hnd Hpos; [simpl in Hpos; lia|].
  rewrite fmap_cons in Hnd. apply NoDup_cons in Hnd as [Hu Hnd].
  rewrite incoming_cons in Hpos.
  destruct (decide (u ∈ gone)) as [Hg|Hg].
  - destruct (IH Hnd) as (p & Hp & Hn); [lia|].
    exists p. split; [done|]. cbn [ODict.get].
    rewrite decide_False; [done|]. intros ->. apply Hu.
    apply (get_or_elem_of es u n Hn).
  - destruct (decide (0 < count_of n l)) as [Hc|Hc].
    + exists u. split; [done|]. cbn [ODict.get]. rewrite decide_True by done.
      simpl. by apply count_of_pos_elem_of.
    + destruct (IH Hnd) as (p & Hp & Hn); [lia|].
      exists p. split; [done|]. cbn [ODict.get].
      rewrite decide_False; [done|]. intros ->. apply Hu.
      apply (get_or_elem_of es u n Hn).
Qed.

Lemma long_chain_has_cycle edges (keys l : list string) :
  chain edges l → (∀ x, x ∈ l → x ∈ keys) → length keys < length l →
  ∃ x, on_cycle edges x.
Proof.
  intros Hch Hin Hlen.
  destruct (not_NoDup_split l) as (x & l1 & l2 & l3 & ->).
  - intros Hnd. apply (NoDup_submseteq _ keys) in Hnd; [|done].
    apply submseteq_length in Hnd. lia.
  - exists x. apply (chain_tc edges l1 x l2 x).
    apply (chain_prefix edges (l1 ++ x :: l2 ++ [x]) l3).
    replace ((l1 ++ x :: l2 ++ [x]) ++ l3) with (l1 ++ x :: l2 ++ x :: l3); [done|].
    rewrite <- app_assoc. simpl. by rewrite <- app_assoc.
Qed.

Section unpopped.
Context (tasks : list Task) (s : kahn_state).
Let nodes := build_nodes tasks.
Let e := (graph_adjacency tasks).1.
Context (Hinv : kahn_inv nodes e [] s) (Hord : kahn_order nodes e [] s).
Context (Hqueue : queue s = []).

Lemma unpopped_pred n :
  n ∈ ODict.keys nodes → n ∉ popped s →
  ∃ p, p ∈ ODict.keys nodes ∧ (p ∉ popped s) ∧ n ∈ neighbors e p.
Proof.
  intros Hn Hnp.
  destruct Hinv as [Hnd Hdeg Hz Hu Hr Hlp Hac], Hord as [Hsorted Hzero].
  rewrite Hqueue in *. simpl in *.
  assert (0 < incoming e (popped s) n) as Hpos.
  { destruct (decide (incoming e (popped s) n = 0)) as [Hz0|]; [|lia].
    destruct Hnp. apply Hzero; [done | lia]. }
  apply incoming_pos_pred in Hpos as (p & Hp & Hnb); [|apply NoDup_graph_adjacency].
  exists p. split_and!; [|done..].
  apply get_or_elem_of in Hnb as Hkey. apply elem_of_keys in Hkey as [l Hl].
  destruct (closed_graph_adjacency tasks) as [Hcl _]. exact (proj1 (Hcl p l Hl)).
Qed.

Lemma unpopped_chain k n :
  n ∈ ODict.keys nodes → n ∉ popped s →
  ∃ l, length l = S k ∧ chain e l
       ∧ ∀ x, x ∈ l → x ∈ ODict.keys nodes ∧ x ∉ popped s.
Proof.
  intros Hn Hnp. induction k as [|k (l & Hlen & Hch & Hall)].
  - exists [n]. split_and!; [done | |].
    + intros [|? [|? ?]] ? ? ? ?; simplify_eq.
    + by intros x ->%list_elem_of_singleton.
  - destruct l as [|h l]; [done|].
    destruct (Hall h) as [Hh Hhp]; [by left|].
    destruct (unpopped_pred h Hh Hhp) as (p & Hp & Hpp & Hnb).
    exists (p :: h :: l). split_and!; [simpl in *; lia | by apply chain_cons|].
    intros x [->|Hx]%elem_of_cons; [done | by apply Hall].
Qed.

Lemma acyclic_all_popped n : acyclic e → n ∈ ODict.keys nodes → n ∈ popped s.
Proof.
  intros Hacyclic Hn. destruct (decide (n ∈ popped s)) as [|Hnp]; [done|].
  destruct (unpopped_chain (length (ODict.keys nodes)) n Hn Hnp) as (l & Hlen & Hch & Hall).
  destruct (long_chain_has_cycle e (ODict.keys nodes) l) as [x Hx]; [done | | lia|].
  - intros x Hx. by apply Hall.
  - by destruct (Hacyclic x).
Qed.

End unpopped.

(** X8.  When the forward adjacency of a task list has no cycle, the
    worklist phase takes every node from the queue, each once, each after
    all the nodes that have a forward edge to it: the order in which the
    nodes are taken is a topological order of the graph. *)
Theorem acyclic_worklist_is_topological (tasks : list Task) :
  acyclic (graph_adjacency tasks).1 →
  ∃ s, kahn (build_nodes tasks) (graph_adjacency tasks).1 = Some s
    ∧ popped s ≡ₚ ODict.keys (build_nodes tasks)
    ∧ (∀ l1 n l2 p, popped s = l1 ++ n :: l2 →
                    n ∈ neighbors (graph_adjacency tasks).1 p → p ∈ l1).
Proof.
  intros Hacyclic.
  destruct (kahn_result (build_nodes tasks) (graph_adjacency tasks).1
              (NoDup_build_nodes tasks) (proj1 (NoDup_graph_adjacency tasks)))
    as (s & Hk & Hq & Hinv & Hord).
  exists s. split_and!; [done | | apply Hord].
  apply NoDup_Permutation.
  - destruct Hinv as [Hnd _ _ _ _ _ _]. rewrite Hq in Hnd. done.
  - apply NoDup_build_nodes.
  - intros n. split.
    + intros Hn. apply kahn_universe_nodes. apply Hinv. rewrite Hq. done.
    + by apply acyclic_all_popped.
Qed.

Lemma acyclic_worklist_witness :
  ∃ s, kahn (build_nodes three_tasks) (graph_adjacency three_tasks).1 = Some s
    ∧ popped s ≡ₚ ODict.keys (build_nodes three_tasks)
    ∧ (∀ l1 n l2 p, popped s = l1 ++ n :: l2 →
                    n ∈ neighbors (graph_adjacency three_tasks).1 p → p ∈ l1).
Proof.
  apply (acyclic_worklist_is_topological three_tasks).
  apply (detect_cycles_nil_acyclic _ 2). vm_compute. reflexivity.
Defined.

(** ** The critical path *)

Lemma is_pred_edge nodes edges lp current d node :
  is_pred nodes edges lp current d node = true → current ∈ neighbors edges node.
Proof.
  unfold is_pred. intros [[_ Hin]%andb_true_iff _]%andb_true_iff.
  by apply bool_decide_eq_true in Hin.
Qed.

Lemma find_elem_of {A} (f : A → bool) (l : list A) x :
  List.find f l = Some x → x ∈ l ∧ f x = true.
Proof. intros [Hin Hf]%find_some. split; [by apply list_elem_of_In | done]. Qed.

Lemma trace_back_chain fuel nodes edges lp cp tail current d res :
  trace_back fuel nodes edges lp cp current d = Some res →
  cp = current :: tail → chain edges cp →
  ∃ pre, res = pre ++ cp ∧ chain edges res ∧ ∀ x, x ∈ pre → x ∈ ODict.keys nodes.
Proof.
  revert cp tail current d.
  induction fuel as [|fuel IH]; intros cp tail current d.
  - rewrite trace_back_O. destruct (0 <? d)%float; [done|].
    intros [= <-] _ Hch. exists []. split_and!; [done | done|]. by intros x ?%elem_of_nil.
  - rewrite trace_back_S. destruct (0 <? d)%float.
    + destruct (List.find _ _) as [node|] eqn:Hfind.
      * apply find_elem_of in Hfind as [Hnode Hpred%is_pred_edge].
        intros Hres -> Hch.
        destruct (IH _ (current :: tail) node _ Hres eq_refl) as (pre & -> & Hch' & Hpre).
        { by apply chain_cons. }
        exists (pre ++ [node]). split_and!; [by rewrite <- app_assoc | done|].
        intros x [Hx| ->%list_elem_of_singleton]%elem_of_app; [by apply Hpre | done].
      * intros [= <-] _ Hch. exists []. split_and!; [done | done|].
        by intros x ?%elem_of_nil.
    + intros [= <-] _ Hch. exists []. split_and!; [done | done|].
      by intros x ?%elem_of_nil.
Qed.

Lemma max_item_elem items x : max_item items = Some x → x ∈ items.
Proof.
  destruct items as [|y items]; simpl; [done|]. intros [= <-].
  revert y. induction items as [|z items IH]; intros y; simpl; [by left|].
  destruct (y.2 <? z.2)%float.
  - right. apply IH.
  - specialize (IH y). apply elem_of_cons in IH as [Hy|Hin].
    + rewrite Hy. by left.
    + right. by right.
Qed.

Lemma find_critical_path_chain fuel nodes edges cp :
  NoDup (ODict.keys nodes) → NoDup (ODict.keys edges) →
  _find_critical_path fuel nodes edges = Some cp →
  chain edges cp
  ∧ (∀ m, last cp = Some m → ∃ p, m ∈ neighbors edges p)
  ∧ (∀ x, x ∈ cp → x ∈ kahn_universe nodes edges).
Proof.
  intros Hn He. unfold _find_critical_path.
  destruct (kahn_total nodes edges Hn He) as (s & -> & _ & Hinv).
  destruct (max_item (longest_path s)) as [[m d]|] eqn:Hmax.
  - intros Hres. apply max_item_elem in Hmax.
    assert (Hm : ∃ p, m ∈ neighbors edges p).
    { destruct (inv_lp _ _ _ _ Hinv m) as (p & _ & Hp); [|by exists p].
      apply list_elem_of_fmap. by exists (m, d). }
    destruct (trace_back_chain _ _ _ _ [m] [] m d cp Hres eq_refl)
      as (pre & -> & Hch & Hpre).
    { intros [|? [|? ?]] ? ? ? ?; simplify_eq. }
    split_and!; [done | |].
    + intros m'. rewrite last_snoc. by intros [= <-].
    + intros x [Hx| ->%list_elem_of_singleton]%elem_of_app.
      * apply elem_of_app. left. by apply Hpre.
      * destruct Hm as [p Hp]. apply elem_of_app. right.
        by eapply neighbors_in_values.
  - intros [= <-]. split_and!; [|done|by intros x ?%elem_of_nil].
    intros [|? ?] ? ? ? ?; done.
Qed.

(** X9.  The critical path of a returned graph runs along the forward
    edges: each id of it but the last has the next one in its forward
    adjacency list.  Every id of it is a node, and its last id, when
    there is one, has a prerequisite. *)
Theorem critical_path_follows_edges (frames fuel : nat) (tasks : list Task)
    (g : DependencyGraph) :
  from_tasks frames fuel tasks = Returned g →
  (∀ l1 x y l2, critical_path g = l1 ++ x :: y :: l2 → y ∈ neighbors (edges g) x)
  ∧ (∀ x, x ∈ critical_path g → x ∈ ODict.keys (nodes g))
  ∧ (∀ m, last (critical_path g) = Some m → ∃ p, m ∈ neighbors (edges g) p).
Proof.
  intros (Hn & He & _ & _ & Hcp & _)%from_tasks_Returned.
  rewrite Hn, He in *.
  apply find_critical_path_chain in Hcp as (Hch & Hlast & Hin);
    [|apply NoDup_build_nodes | apply NoDup_graph_adjacency].
  split_and!; [exact Hch | | done].
  intros x Hx. by apply kahn_universe_nodes, Hin.
Qed.

Lemma critical_path_follows_edges_witness :
  (∀ l1 x y l2, ["#1"; "#2"] = l1 ++ x :: y :: l2 →
     y ∈ neighbors [("#1", ["#2"; "#3"])] x)
  ∧ (∀ x, x ∈ ["#1"; "#2"] → x ∈ ODict.keys (build_nodes three_tasks))
  ∧ (∀ m, last ["#1"; "#2"] = Some m → ∃ p, m ∈ neighbors [("#1", ["#2"; "#3"])] p).
Proof.
  apply (critical_path_follows_edges 2 3 three_tasks
           (mkGraph (build_nodes three_tasks) [("#1", ["#2"; "#3"])]
              [("#2", ["#1"]); ("#3", ["#1"])] [] ["#1"; "#2"] ["#2"; "#3"] ["#1"])).
  vm_compute. reflexivity.
Defined.

(** ** The analysis on a graph without cycle *)

Lemma chain_acyclic_NoDup edges l : acyclic edges → chain edges l → NoDup l.
Proof.
  intros Hacyclic Hch. destruct (decide (NoDup l)) as [|Hnd]; [done|].
  apply not_NoDup_split in Hnd as (x & l1 & l2 & l3 & ->).
  destruct (Hacyclic x). apply (chain_tc edges l1 x l2 x).
  apply (chain_prefix edges (l1 ++ x :: l2 ++ [x]) l3).
  replace ((l1 ++ x :: l2 ++ [x]) ++ l3) with (l1 ++ x :: l2 ++ x :: l3); [done|].
  rewrite <- app_assoc. simpl. by rewrite <- app_assoc.
Qed.

Lemma trace_back_acyclic fuel nodes edges lp cp tail current d :
  acyclic edges →
  cp = current :: tail → chain edges cp →
  (∀ x, x ∈ cp → x ∈ ODict.keys nodes) →
  length (ODict.keys nodes) < fuel + length cp →
  ∃ res, trace_back fuel nodes edges lp cp current d = Some res.
Proof.
  intros Hacyclic. revert cp tail current d.
  induction fuel as [|fuel IH]; intros cp tail current d Hcp Hch Hin Hlen.
  - exfalso.
    apply (chain_acyclic_NoDup edges cp Hacyclic) in Hch.
    apply (NoDup_submseteq _ (ODict.keys nodes)) in Hch; [|done].
    apply submseteq_length in Hch. lia.
  - rewrite trace_back_S. destruct (0 <? d)%float; [|eauto].
    destruct (List.find _ _) as [node|] eqn:Hfind; [|eauto].
    apply find_elem_of in Hfind as [Hnode Hpred%is_pred_edge].
    apply (IH _ cp node); [done | | |].
    + subst cp. by apply chain_cons.
    + intros x [->|Hx]%elem_of_cons; [done | by apply Hin].
    + simpl. lia.
Qed.

Lemma length_set_le {V} k (v : V) d : length (ODict.set k v d) ≤ S (length d).
Proof.
  induction d as [|[k' v'] d IH]; simpl; [done|]. case_decide; simpl; lia.
Qed.

Lemma length_build_nodes tasks : length (build_nodes tasks) ≤ length tasks.
Proof.
  unfold build_nodes, nodes_from.
  assert (H : ∀ d, length (fold_left (fun d t => ODict.set (task_key t) t d) tasks d)
                   ≤ length d + length tasks).
  { induction tasks as [|t tasks IH]; intros d; simpl; [lia|].
    specialize (IH (ODict.set (task_key t) t d)).
    pose proof (length_set_le (task_key t) t d). lia. }
  apply (H []).
Qed.

(** The ids of the adjacency are nodes, so they are no more than the
    tasks. *)
Lemma universe_size tasks : size (universe_set (graph_adjacency tasks).1) ≤ length tasks.
Proof.
  pose proof (length_build_nodes tasks) as Hlen.
  pose proof (size_list_to_set_le (ODict.keys (build_nodes tasks))) as Hsize.
  unfold ODict.keys in Hsize at 2. rewrite length_fmap in Hsize.
  assert (universe_set (graph_adjacency tasks).1
          ⊆ list_to_set (ODict.keys (build_nodes tasks))) as Hsub%subseteq_size; [|lia].
  intros x Hx. apply elem_of_list_to_set. apply elem_of_list_to_set in Hx.
  destruct (closed_graph_adjacency tasks) as [Hcl _].
  apply elem_of_app in Hx as [Hx|Hx].
  - apply elem_of_keys in Hx as [l Hl]. exact (proj1 (Hcl x l Hl)).
  - apply kahn_universe_nodes, elem_of_app. by right.
Qed.

(** X10.  On a task list whose forward adjacency has no cycle the whole
    analysis returns a graph, given more frames for the recursion of the
    cycle detection than there are tasks and as many rounds of the trace
    back as there are tasks: no exception, no endless loop.  The graph
    reports no cycle, and its critical path lists no id twice and is no
    longer than the number of nodes. *)
Theorem acyclic_analysis_returns (frames fuel : nat) (tasks : list Task) :
  acyclic (graph_adjacency tasks).1 → length tasks < frames → length tasks ≤ fuel →
  ∃ g, from_tasks frames fuel tasks = Returned g
    ∧ graph_cycles g = []
    ∧ NoDup (critical_path g)
    ∧ length (critical_path g) ≤ length (nodes g).
Proof.
  intros Hacyclic Hframes Hfuel.
  assert (Hcycles : _detect_cycles frames (graph_adjacency tasks).1 = Returned []).
  { apply detect_cycles_acyclic_returns; [done|].
    pose proof (universe_size tasks). lia. }
  pose proof (NoDup_build_nodes tasks) as Hn.
  pose proof (proj1 (NoDup_graph_adjacency tasks)) as He.
  pose proof (length_build_nodes tasks) as Hlen.
  assert (Hcp : ∃ cp, _find_critical_path fuel (build_nodes tasks)
                        (graph_adjacency tasks).1 = Some cp).
  { unfold _find_critical_path.
    destruct (kahn_total _ _ Hn He) as (s & Hk & _ & Hinv). rewrite Hk.
    destruct (max_item (longest_path s)) as [[m d]|] eqn:Hmax; [|eauto].
    apply max_item_elem in Hmax.
    apply (trace_back_acyclic _ _ _ _ [m] [] m d); [done | done | | |].
    - intros [|? [|? ?]] ? ? ? ?; simplify_eq.
    - intros x ->%list_elem_of_singleton. apply kahn_universe_nodes.
      destruct (inv_lp _ _ _ _ Hinv m) as (p & _ & Hp).
      + apply list_elem_of_fmap. by exists (m, d).
      + apply elem_of_app. right. by eapply neighbors_in_values.
    - simpl. unfold ODict.keys. rewrite length_fmap. lia. }
  destruct Hcp as [cp Hcp].
  pose proof (find_critical_path_chain _ _ _ _ Hn He Hcp) as (Hch & _ & Hin).
  unfold from_tasks.
  change (build_edges (build_nodes tasks) tasks) with (graph_adjacency tasks).
  destruct (graph_adjacency tasks) as [e r] eqn:Ha. simpl in *.
  rewrite Hcycles, Hcp.
  destruct (classify (build_nodes tasks) r) as [b rd].
  eexists. split; [done|]. simpl.
  assert (Hnd : NoDup cp) by (by apply (chain_acyclic_NoDup e)).
  split_and!; [done | done|].
  replace (length (build_nodes tasks)) with (length (ODict.keys (build_nodes tasks)))
    by apply length_fmap.
  apply submseteq_length, NoDup_submseteq; [done|].
  intros x Hx. apply kahn_universe_nodes. rewrite Ha. simpl. by apply Hin.
Qed.

Lemma acyclic_analysis_witness :
  ∃ g, from_tasks 4 3 three_tasks = Returned g
    ∧ graph_cycles g = []
    ∧ NoDup (critical_path g)
    ∧ length (critical_path g) ≤ length (nodes g).
Proof.
  apply (acyclic_analysis_returns 4 3 three_tasks).
  - apply (detect_cycles_nil_acyclic _ 2). vm_compute. reflexivity.
  - simpl. lia.
  - simpl. lia.
Defined.

(** ** The summary *)

Lemma classify_lengths nodes r (l : list (string * Task)) :
  length l
  = length (filter (fun item => is_completed (status item.2) = true) l)
    + length (filter (fun item => blocked_item nodes r item = true) l)
    + length (filter (fun item => ready_item nodes r item = true) l).
Proof.
  induction l as [|item l IH]; [done|].
  rewrite !filter_cons. unfold blocked_item, ready_item in *.
  destruct (is_completed (status item.2)),
    (prereq_completed nodes (ODict.get_or r item.1 [])); simpl;
    repeat case_decide; try done; simpl; lia.
Qed.

(** X11.  In the summary of a returned graph every node is counted once:
    the total is the number of completed tasks plus the number of blocked
    tasks plus the number of ready tasks, and it is at most the number of
    input tasks.  There is one blocking message per blocked task, and the
    recommended tasks are the first three ready tasks, or all of them
    when there are fewer. *)
Theorem summary_counts (frames fuel : nat) (tasks : list Task) (g : DependencyGraph) :
  from_tasks frames fuel tasks = Returned g →
  total_tasks (get_analysis_summary g)
  = completed_tasks (get_analysis_summary g) + blocked_count (get_analysis_summary g)
    + ready_count (get_analysis_summary g)
  ∧ total_tasks (get_analysis_summary g) ≤ length tasks
  ∧ length (blocking_issues (get_analysis_summary g)) = blocked_count (get_analysis_summary g)
  ∧ length (next_recommended_tasks (get_analysis_summary g))
    = min 3 (ready_count (get_analysis_summary g))
  ∧ ∃ others, ready_tasks g = next_recommended_tasks (get_analysis_summary g) ++ others.
Proof.
  intros (Hn & _ & Hr & _ & _ & Hb & Hrd)%from_tasks_Returned.
  unfold get_analysis_summary.
  cbn [total_tasks completed_tasks blocked_count ready_count blocking_issues
       next_recommended_tasks].
  split_and!.
  - rewrite Hb, Hrd, classify_eq. cbn [fst snd]. rewrite !length_fmap.
    apply classify_lengths.
  - rewrite Hn. apply length_build_nodes.
  - apply length_fmap.
  - apply length_take.
  - exists (drop 3 (ready_tasks g)). symmetry. apply take_drop.
Qed.

Lemma summary_counts_witness :
  3 = 0 + 2 + 1 ∧ 3 ≤ 3 ∧ 2 = 2 ∧ 1 = min 3 1 ∧ ∃ others, ["#1"] = ["#1"] ++ others.
Proof.
  apply (summary_counts 2 3 three_tasks
           (mkGraph (build_nodes three_tasks) [("#1", ["#2"; "#3"])]
              [("#2", ["#1"]); ("#3", ["#1"])] [] ["#1"; "#2"] ["#2"; "#3"] ["#1"])).
  vm_compute. reflexivity.
Defined.

(** ** What the enhanced analysis writes *)

Lemma fold_enhance_step g tasks h a :
  fold_left (enhance_step g) tasks h a = Nat.iter (times a tasks) (enhance_task g) (h a).
Proof.
  revert h. induction tasks as [|b tasks IH]; intros h; simpl; [done|].
  rewrite IH. unfold enhance_step, store. case_decide as Hab; [|done].
  subst. by rewrite Nat.iter_succ_r.
Qed.

Lemma iter_enhance_task g n t :
  task_key (Nat.iter n (enhance_task g) t) = task_key t
  ∧ complexity_indicators (Nat.iter n (enhance_task g) t)
    = complexity_indicators t ++ markers (task_key t) (critical_path g) n "critical_path"
  ∧ risk_factors (Nat.iter n (enhance_task g) t)
    = risk_factors t ++ markers (task_key t) (blocked_tasks g) n "blocked_by_dependencies"
  ∧ success_patterns (Nat.iter n (enhance_task g) t)
    = success_patterns t ++ markers (task_key t) (ready_tasks g) n "ready_for_execution".
Proof.
  unfold markers. induction n as [|n (Hk & Hc & Hr & Hs)]; simpl.
  - repeat case_bool_decide; simpl; by rewrite !app_nil_r.
  - set (t' := Nat.iter n (enhance_task g) t) in *.
    assert (Hkey : task_key (enhance_task g t') = task_key t).
    { rewrite <- Hk. unfold enhance_task, when. by repeat case_bool_decide. }
    split; [done|]. unfold enhance_task, when. rewrite Hk.
    repeat case_bool_decide; simpl; rewrite ?Hc, ?Hr, ?Hs, ?app_nil_r;
      rewrite <- ?app_assoc; split_and!; try done;
      by rewrite <- replicate_cons_app.
Qed.

Lemma classify_disjoint nodes r k :
  NoDup (ODict.keys nodes) →
  ¬ (k ∈ (classify nodes r).1 ∧ k ∈ (classify nodes r).2).
Proof.
  intros Hnd. rewrite classify_eq. simpl.
  rewrite !(elem_of_filter_keys nodes _ k Hnd).
  intros [(t & Ht & Hb) (t' & Ht' & Hr)]. simplify_eq.
  unfold blocked_item, ready_item in *. simpl in *.
  destruct (is_completed (status t)), (prereq_completed nodes _); done.
Qed.

(** X12.  The enhanced analysis writes to an object once for each time
    the object is in the list: as many ["critical_path"],
    ["blocked_by_dependencies"] and ["ready_for_execution"] markers are
    appended as the object is listed, when its key is on the critical
    path, blocked or ready, and none otherwise.  No object gets both the
    blocked and the ready marker in one call. *)
Theorem enhance_writes_per_listing frames fuel (h : heap) (tasks : list nat)
    h' out summary :
  enhance_task_analysis frames fuel h tasks = Returned (h', out, summary) →
  ∃ g, from_tasks frames fuel (snapshot h tasks) = Returned g
    ∧ (∀ a,
         complexity_indicators (h' a)
         = complexity_indicators (h a)
           ++ markers (task_key (h a)) (critical_path g) (times a tasks) "critical_path"
         ∧ risk_factors (h' a)
           = risk_factors (h a)
             ++ markers (task_key (h a)) (blocked_tasks g) (times a tasks)
                  "blocked_by_dependencies"
         ∧ success_patterns (h' a)
           = success_patterns (h a)
             ++ markers (task_key (h a)) (ready_tasks g) (times a tasks)
                  "ready_for_execution")
    ∧ (∀ a, risk_factors (h' a) = risk_factors (h a)
            ∨ success_patterns (h' a) = success_patterns (h a)).
Proof.
  unfold enhance_task_analysis.
  destruct (from_tasks frames fuel (snapshot h tasks)) as [g| |] eqn:Hg; [|done..].
  intros [= <- <- <-]. exists g. split; [done|].
  assert (Hall : ∀ a, _) by
    (intros a; exact (proj2 (iter_enhance_task g (times a tasks) (h a)))).
  split.
  - intros a. rewrite fold_enhance_step. apply Hall.
  - intros a. rewrite fold_enhance_step.
    destruct (Hall a) as (_ & Hr & Hs). rewrite Hr, Hs. unfold markers.
    apply from_tasks_Returned in Hg as (Hn & _ & _ & _ & _ & Hb & Hrd).
    pose proof (classify_disjoint (nodes g) (reverse_edges g) (task_key (h a))) as Hd.
    rewrite <- Hb, <- Hrd in Hd.
    repeat case_bool_decide; simpl; rewrite ?app_nil_r; auto.
    destruct Hd; [|done]. rewrite Hn. apply NoDup_build_nodes.
Qed.

Lemma enhance_writes_witness :
  ∃ g, from_tasks 1 1 (snapshot lone_heap twice_listed) = Returned g
    ∧ (∀ a,
         complexity_indicators (lone_heap_twice a)
         = complexity_indicators (lone_heap a)
           ++ markers (task_key (lone_heap a)) (critical_path g) (times a twice_listed)
                "critical_path"
         ∧ risk_factors (lone_heap_twice a)
           = risk_factors (lone_heap a)
             ++ markers (task_key (lone_heap a)) (blocked_tasks g) (times a twice_listed)
                  "blocked_by_dependencies"
         ∧ success_patterns (lone_heap_twice a)
           = success_patterns (lone_heap a)
             ++ markers (task_key (lone_heap a)) (ready_tasks g) (times a twice_listed)
                  "ready_for_execution")
    ∧ (∀ a, risk_factors (lone_heap_twice a) = risk_factors (lone_heap a)
            ∨ success_patterns (lone_heap_twice a) = success_patterns (lone_heap a)).
Proof.
  apply (enhance_writes_per_listing 1 1 lone_heap twice_listed lone_heap_twice twice_listed
           (mkSummary 1 0 0 1 0 0 [] ["#1"] [])).
  reflexivity.
Defined.

(** ** Ids with the same key *)

Lemma append_empty_r s : s +:+ "" = s.
Proof. induction s as [|c s IH]; [done|]. by rewrite append_String, IH. Qed.

Lemma drop_while_all p l s :
  all_chars p l = true → PyStr.drop_while p (l +:+ s) = PyStr.drop_while p s.
Proof.
  induction l as [|c l IH]; [done|].
  intros [Hc Hl]%andb_true_iff. rewrite append_String.
  cbn [PyStr.drop_while]. rewrite Hc. by apply IH.
Qed.

Lemma drop_while_all_empty p r : all_chars p r = true → PyStr.drop_while p r = "".
Proof.
  induction r as [|c r IH]; [done|].
  intros [Hc Hr]%andb_true_iff. cbn [PyStr.drop_while]. rewrite Hc. by apply IH.
Qed.

Lemma drop_while_end_all p r : all_chars p r = true → PyStr.drop_while_end p r = "".
Proof.
  induction r as [|c r IH]; [done|].
  intros [Hc Hr]%andb_true_iff. cbn [PyStr.drop_while_end]. by rewrite (IH Hr), Hc.
Qed.

Lemma drop_while_end_app p s r :
  all_chars p r = true → PyStr.drop_while_end p (s +:+ r) = PyStr.drop_while_end p s.
Proof.
  intros Hr. induction s as [|c s IH].
  - rewrite append_empty. by apply drop_while_end_all.
  - rewrite append_String. cbn [PyStr.drop_while_end]. by rewrite IH.
Qed.

Lemma drop_while_end_id p s :
  (∀ c, last_char s = Some c → p c = false) → PyStr.drop_while_end p s = s.
Proof.
  induction s as [|c s IH]; [done|]. intros Hlast. cbn [PyStr.drop_while_end].
  destruct s as [|c' s].
  - cbn. by rewrite (Hlast c eq_refl).
  - rewrite IH; [done|]. intros c0 Hc0. apply Hlast.
    cbn in *. by destruct (last_char s).
Qed.

Lemma drop_while_id p s :
  (∀ c, first_char s = Some c → p c = false) → PyStr.drop_while p s = s.
Proof. destruct s as [|c s]; [done|]. cbn. intros H. by rewrite (H c eq_refl). Qed.

Lemma strip_with_core p l core r :
  all_chars p l = true → all_chars p r = true →
  (∀ c, first_char core = Some c → p c = false) →
  (∀ c, last_char core = Some c → p c = false) →
  PyStr.strip_with p (l +:+ core +:+ r) = core.
Proof.
  intros Hl Hr Hfirst Hlast. unfold PyStr.strip_with.
  rewrite drop_while_all by done.
  destruct core as [|c core].
  - rewrite append_empty, drop_while_all_empty by done. done.
  - rewrite drop_while_id.
    + rewrite drop_while_end_app by done. by apply drop_while_end_id.
    + rewrite append_String. cbn. intros c0 [= <-]. by apply Hfirst.
Qed.

Lemma startswith_cons c s :
  PyStr.startswith "#" (String c s) = if Ascii.ascii_dec "#" c then true else false.
Proof.
  unfold PyStr.startswith.
  change (String.prefix "#" (String c s))
    with (if Ascii.ascii_dec "#" c then String.prefix "" s else false).
  destruct (Ascii.ascii_dec "#" c); [by destruct s | done].
Qed.

Lemma startswith_hash s : PyStr.startswith "#" (String "#" s) = true.
Proof. rewrite startswith_cons. by destruct (Ascii.ascii_dec "#" "#"). Qed.

(** X13.  An id keeps its key when ['#'] characters are put before or
    after it: for a core that neither starts nor ends with ['#'], the
    ids [core], ["#" core], ["##" core "#"] and so on all have the key
    ["#" core], and the key of this key is the key itself. *)
Theorem ids_with_the_same_key (l core r : string) :
  all_chars PyStr.is_hash l = true → all_chars PyStr.is_hash r = true →
  first_char core ≠ Some "#"%char → last_char core ≠ Some "#"%char →
  normalize_id core = "#" +:+ core
  ∧ (l ≠ "" → normalize_id (l +:+ core +:+ r) = "#" +:+ core)
  ∧ normalize_id ("#" +:+ core) = "#" +:+ core.
Proof.
  intros Hl Hr Hfirst Hlast.
  assert (Hf : ∀ c, first_char core = Some c → PyStr.is_hash c = false).
  { intros c Hc. destruct (PyStr.is_hash c) eqn:Hh; [|done].
    apply is_hash_spec in Hh. congruence. }
  assert (Hla : ∀ c, last_char core = Some c → PyStr.is_hash c = false).
  { intros c Hc. destruct (PyStr.is_hash c) eqn:Hh; [|done].
    apply is_hash_spec in Hh. congruence. }
  assert (Hhash : ∀ l' r', l' ≠ "" → all_chars PyStr.is_hash l' = true →
                           all_chars PyStr.is_hash r' = true →
                           normalize_id (l' +:+ core +:+ r') = "#" +:+ core).
  { intros l' r' Hne Hl' Hr'. unfold normalize_id.
    destruct l' as [|c l']; [done|].
    apply andb_true_iff in Hl' as Hl''. destruct Hl'' as [Hc%is_hash_spec _]. subst c.
    rewrite append_String at 1. rewrite startswith_hash.
    by rewrite strip_with_core. }
  split_and!.
  - apply normalize_id_plain.
    destruct core as [|c core]; [done|]. rewrite startswith_cons.
    destruct (Ascii.ascii_dec "#" c) as [<-|]; [by destruct Hfirst | done].
  - intros Hne. by apply Hhash.
  - rewrite <- (append_empty_r core) at 1. by apply (Hhash "#" "").
Qed.

Lemma ids_with_the_same_key_witness :
  normalize_id "7" = "#7" ∧ ("##" ≠ "" → normalize_id "##7#" = "#7")
  ∧ normalize_id "#7" = "#7".
Proof.
  apply (ids_with_the_same_key "##" "7" "#"); [reflexivity | reflexivity | | ];
    discriminate.
Defined.

(** ** Why a task is blocked *)

Lemma prereq_completed_false nodes l :
  prereq_completed nodes l = false
  ↔ ∃ p tp, p ∈ l ∧ ODict.get nodes p = Some tp ∧ status tp ≠ COMPLETED.
Proof.
  unfold prereq_completed. induction l as [|q l IH].
  - split; [done | by intros (p & tp & ?%elem_of_nil & _)].
  - rewrite filter_cons. case_decide as Hmem.
    + unfold ODict.mem in Hmem.
      destruct (ODict.get nodes q) as [tq|] eqn:Hq; [|done].
      cbn [forallb]. rewrite Hq, andb_false_iff, IH.
      rewrite is_completed_false. split.
      * intros [Hs|(p & tp & Hp & Hget & Hs)].
        -- exists q, tq. split_and!; [by left | done | done].
        -- exists p, tp. split_and!; [by right | done | done].
      * intros (p & tp & [->|Hp]%elem_of_cons & Hget & Hs).
        -- left. congruence.
        -- right. by exists p, tp.
    + unfold ODict.mem in Hmem.
      destruct (ODict.get nodes q) as [tq|] eqn:Hq; [done|].
      rewrite IH. split.
      * intros (p & tp & Hp & Hget & Hs). exists p, tp. split_and!; [by right | done..].
      * intros (p & tp & [->|Hp]%elem_of_cons & Hget & Hs); [congruence|].
        by exists p, tp.
Qed.

(** A reason in a dependency text of a task gives the edge. *)
Lemma edge_reason_edge tasks task dep p :
  task ∈ tasks → dep ∈ dependencies task →
  edge_reason (build_nodes tasks) dep p (task_key task) →
  edge_pair (graph_adjacency tasks) p (task_key task).
Proof.
  intros Htask Hdep [Hm Hreason].
  assert (Hstep :
    (∀ a, edge_pair (add_dep (build_nodes tasks) (task_key task) a dep) p (task_key task)) →
    edge_pair (graph_adjacency tasks) p (task_key task)).
  { intros Hnew. unfold graph_adjacency, build_edges.
    apply (fold_left_elem (fun a => edge_pair a p (task_key task)) _ _ _ task Htask).
    - intros a. unfold add_task.
      apply (fold_left_elem (fun a => edge_pair a p (task_key task)) _ _ _ dep Hdep);
        [done|].
      intros a' dep'. apply add_dep_keeps.
    - intros a t'. apply add_task_keeps. }
  apply Hstep. intros a. unfold add_dep.
  destruct Hreason as [(ref & Href & ->)|[(Hc & Hk & -> & Hne)|(Hc & Hk1 & Hk2 & -> & Hne)]].
  - pose proof (findall_from_spec _ _ _ Href) as (Hc & _). rewrite Hc.
    apply (fold_left_elem (fun a => edge_pair a ("#" +:+ ref) (task_key task))
             _ _ _ ref Href).
    + intros a'. by apply add_ref_new.
    + intros a' ref'. apply add_ref_keeps.
  - rewrite Hc, Hk. by apply add_anchor_new.
  - rewrite Hc, Hk1, Hk2. by apply add_anchor_new.
Qed.

(** X14.  A node that is not completed is blocked exactly when a
    dependency text of a task with its key refers, by a number or by a
    keyword, to a node whose task is not completed; otherwise it is
    ready.  In particular a task that is not completed and has no
    dependency text is ready. *)
Theorem blocked_iff_open_reference (tasks : list Task) (k : string) (t : Task) :
  ODict.get (build_nodes tasks) k = Some t → status t ≠ COMPLETED →
  (k ∈ (classify (build_nodes tasks) (graph_adjacency tasks).2).1
   ↔ ∃ task dep p tp,
       task ∈ tasks ∧ task_key task = k ∧ dep ∈ dependencies task
       ∧ edge_reason (build_nodes tasks) dep p k
       ∧ ODict.get (build_nodes tasks) p = Some tp ∧ status tp ≠ COMPLETED)
  ∧ (k ∈ (classify (build_nodes tasks) (graph_adjacency tasks).2).2
     ↔ ¬ ∃ task dep p tp,
         task ∈ tasks ∧ task_key task = k ∧ dep ∈ dependencies task
         ∧ edge_reason (build_nodes tasks) dep p k
         ∧ ODict.get (build_nodes tasks) p = Some tp ∧ status tp ≠ COMPLETED)
  ∧ ((∀ task, task ∈ tasks → task_key task = k → dependencies task = []) →
     k ∈ (classify (build_nodes tasks) (graph_adjacency tasks).2).2).
Proof.
  intros Hget Hs.
  set (nodes := build_nodes tasks). set (r := (graph_adjacency tasks).2).
  pose proof (NoDup_build_nodes tasks : NoDup (ODict.keys nodes)) as Hnd.
  assert (Hopen :
    prereq_completed nodes (ODict.get_or r k []) = false
    ↔ ∃ task dep p tp,
        task ∈ tasks ∧ task_key task = k ∧ dep ∈ dependencies task
        ∧ edge_reason nodes dep p k
        ∧ ODict.get nodes p = Some tp ∧ status tp ≠ COMPLETED).
  { rewrite prereq_completed_false. split.
    - intros (p & tp & Hp & Hgp & Hsp).
      assert (k ∈ neighbors (graph_adjacency tasks).1 p) as Hin.
      { apply count_of_pos_elem_of. rewrite (mirrored_graph tasks p k).
        by apply count_of_elem_of. }
      apply edges_explained_graph in Hin as (task & dep & Htask & Hkey & Hdep & Hreason).
      by exists task, dep, p, tp.
    - intros (task & dep & p & tp & Htask & <- & Hdep & Hreason & Hgp & Hsp).
      exists p, tp. split_and!; [|done..].
      by apply (edge_reason_edge tasks task dep p). }
  assert (Hb : k ∈ (classify nodes r).1
               ↔ prereq_completed nodes (ODict.get_or r k []) = false).
  { rewrite classify_eq. cbn [fst]. rewrite elem_of_filter_keys by done. split.
    - intros (t' & Hget' & Hbl). unfold blocked_item in Hbl. cbn in Hbl.
      apply andb_true_iff in Hbl as [_ Hbl]. by apply negb_true_iff in Hbl.
    - intros Hpc. exists t. split; [done|]. unfold blocked_item. cbn.
      rewrite Hpc. apply is_completed_false in Hs. by rewrite Hs. }
  assert (Hr : k ∈ (classify nodes r).2
               ↔ prereq_completed nodes (ODict.get_or r k []) = true).
  { rewrite classify_eq. cbn [snd]. rewrite elem_of_filter_keys by done. split.
    - intros (t' & Hget' & Hrd). unfold ready_item in Hrd. cbn in Hrd.
      by apply andb_true_iff in Hrd as [_ Hrd].
    - intros Hpc. exists t. split; [done|]. unfold ready_item. cbn.
      rewrite Hpc. apply is_completed_false in Hs. by rewrite Hs. }
  split_and!.
  - by rewrite Hb, Hopen.
  - rewrite Hr, <- Hopen. by destruct (prereq_completed nodes _).
  - intros Hnone. apply Hr.
    apply not_false_iff_true. intros Hpc.
    apply Hopen in Hpc as (task & dep & _ & _ & Htask & Hkey & Hdep & _).
    rewrite (Hnone task Htask Hkey) in Hdep. by apply elem_of_nil in Hdep.
Qed.

Lemma blocked_iff_open_reference_witness :
  ("#2" ∈ (classify (build_nodes three_tasks) (graph_adjacency three_tasks).2).1
   ↔ ∃ task dep p tp,
       task ∈ three_tasks ∧ task_key task = "#2" ∧ dep ∈ dependencies task
       ∧ edge_reason (build_nodes three_tasks) dep p "#2"
       ∧ ODict.get (build_nodes three_tasks) p = Some tp ∧ status tp ≠ COMPLETED)
  ∧ ("#2" ∈ (classify (build_nodes three_tasks) (graph_adjacency three_tasks).2).2
     ↔ ¬ ∃ task dep p tp,
         task ∈ three_tasks ∧ task_key task = "#2" ∧ dep ∈ dependencies task
         ∧ edge_reason (build_nodes three_tasks) dep p "#2"
         ∧ ODict.get (build_nodes three_tasks) p = Some tp ∧ status tp ≠ COMPLETED)
  ∧ ((∀ task, task ∈ three_tasks → task_key task = "#2" → dependencies task = []) →
     "#2" ∈ (classify (build_nodes three_tasks) (graph_adjacency three_tasks).2).2).
Proof.
  apply (blocked_iff_open_reference three_tasks "#2" (T "#2" PENDING 3 ["Task #1"]));
    [reflexivity | discriminate].
Defined.

(** ** The fields that the builder reads *)

(** X15.  The builder reads the id, the status, the estimated hours and
    the dependency references of a task and nothing else: on tasks
    stripped of [blocks] and of the three annotation lists it gives the
    same outcome, up to these fields of the tasks that [nodes] keeps; so
    do two task lists that differ in these fields only.  The enhanced
    analysis writes these fields only, so that the builder gives the same
    outcome on the same task objects afterwards. *)
Theorem builder_reads_four_fields (frames fuel : nat) :
  (∀ tasks, from_tasks frames fuel (core <$> tasks)
            = outcome_shape (from_tasks frames fuel tasks))
  ∧ (∀ tasks1 tasks2, core <$> tasks1 = core <$> tasks2 →
       outcome_shape (from_tasks frames fuel tasks1)
       = outcome_shape (from_tasks frames fuel tasks2))
  ∧ (∀ h tasks h' out summary,
       enhance_task_analysis frames fuel h tasks = Returned (h', out, summary) →
       outcome_shape (from_tasks frames fuel (snapshot h' tasks))
       = outcome_shape (from_tasks frames fuel (snapshot h tasks))).
Proof.
  assert (Hcore : ∀ tasks1 tasks2, core <$> tasks1 = core <$> tasks2 →
    outcome_shape (from_tasks frames fuel tasks1)
    = outcome_shape (from_tasks frames fuel tasks2)).
  { intros tasks1 tasks2 Heq. by rewrite <- !from_tasks_core, Heq. }
  split_and!; [apply from_tasks_core | exact Hcore |].
  intros h tasks h' out summary Hen. apply Hcore.
  by eapply enhanced_snapshot_core.
Qed.
